(** * BoundaryConstraintComp: boundary-constraint registry and pass-through

    A shallow embedding of
    [dymos/phases/components/boundary_constraint_comp.py].

    The component inherits from OpenMDAO's [ExplicitComponent]; the inherited
    primitives ([add_input], [add_output], [add_constraint],
    [declare_partials]) live outside the repository.  The embedding records
    every call the component issues to them, in order, in the field [calls]:
    the host is taken to accept each call, and what it does with it is not
    part of this development.  The vectors [inputs] and [outputs] that the
    host hands to [compute] are maps from variable names to arrays.  The
    dictionary [_vars] is a Python dictionary: it iterates in insertion
    order, and assigning to a key it already has keeps that key's place.  Python
    exceptions are values of [result]; the methods are state-passing
    functions on the record [BoundaryConstraintComp]. *)

From Stdlib Require Import ZArith PrimFloat.
From stdpp Require Import gmap strings list fin_maps.

(** ** Python values *)

(** A numpy array: its shape and its elements in row-major order. *)
Record ndarray := { nd_shape : list Z; nd_data : list float }.

(** [lower], [upper] and [equals] are a float or an array. *)
Inductive bound :=
| BFloat (x : float)
| BArray (a : ndarray).

(** The values that travel through keyword dictionaries. *)
Inductive pyval :=
| PNone
| PBool (b : bool)
| PFloat (x : float)
| PStr (s : string)
| PTuple (t : list Z)
| PArray (a : ndarray).

(** A keyword dictionary, in insertion order. *)
Definition dict := list (string * pyval).

Inductive exn :=
| KeyError (key : string)
| ValueError (msg : string).

Inductive result (A : Type) :=
| Ok (a : A)
| Raise (e : exn).
Arguments Ok {A} a.
Arguments Raise {A} e.

#[global] Instance result_ret : MRet result := fun A a => Ok a.
#[global] Instance result_bind : MBind result := fun A B f m =>
  match m with
  | Ok a => f a
  | Raise e => Raise e
  end.
#[global] Instance result_fmap : FMap result := fun A B f m =>
  match m with
  | Ok a => Ok (f a)
  | Raise e => Raise e
  end.

(** A [for] loop over a list, threading the state and stopping at the first
    exception. *)
Fixpoint for_each {S A : Type} (body : S -> A -> result S) (s : S) (l : list A)
  : result S :=
  match l with
  | [] => Ok s
  | x :: l' => s' ← body s x; for_each body s' l'
  end.

(** [d.get(k)] *)
Fixpoint dict_get (d : dict) (k : string) : option pyval :=
  match d with
  | [] => None
  | (k', v) :: d' => if String.eqb k' k then Some v else dict_get d' k
  end.

(** [d[k]] *)
Definition getitem (d : dict) (k : string) : result pyval :=
  match dict_get d k with
  | Some v => Ok v
  | None => Raise (KeyError k)
  end.

(** [{k: d[k] for k in keys}] *)
Fixpoint dict_select (d : dict) (keys : list string) : result dict :=
  match keys with
  | [] => Ok []
  | k :: keys' =>
      v ← getitem d k;
      rest ← dict_select d keys';
      Ok ((k, v) :: rest)
  end.

(** [{k: d.get(k, None) for k in keys}] *)
Definition dict_select_default (d : dict) (keys : list string) : dict :=
  (fun k => (k, default PNone (dict_get d k))) <$> keys.

(** ** Python dictionaries, in insertion order *)

Fixpoint assoc_get {V : Type} (l : list (string * V)) (k : string) : option V :=
  match l with
  | [] => None
  | (k', v) :: l' => if String.eqb k' k then Some v else assoc_get l' k
  end.

(** [d[k] = v] on the items: a key already there keeps its place, a new key
    goes to the end. *)
Fixpoint assoc_set {V : Type} (k : string) (v : V) (l : list (string * V))
  : list (string * V) :=
  match l with
  | [] => [(k, v)]
  | (k', v') :: l' =>
      if String.eqb k' k then (k, v) :: l' else (k', v') :: assoc_set k v l'
  end.

(** A dictionary with string keys: its items in insertion order, no key
    twice. *)
Record odict (V : Type) := ODict {
  items : list (string * V);
  items_wf : Is_true (bool_decide (NoDup items.*1))
}.
Arguments ODict {V} items items_wf.
Arguments items {V} _.
Arguments items_wf {V} _.

(** The dictionary with the given items (the empty one if a key repeats,
    which [assoc_set] never produces). *)
Definition odict_of {V : Type} (l : list (string * V)) : odict V :=
  match bool_decide (NoDup l.*1) as b return (Is_true b -> odict V) -> odict V with
  | true => fun mk => mk I
  | false => fun _ => ODict [] I
  end (ODict l).

#[global] Instance odict_lookup {V : Type} : Lookup string V (odict V) :=
  fun k d => assoc_get (items d) k.
#[global] Instance odict_empty {V : Type} : Empty (odict V) := ODict [] I.
#[global] Instance odict_insert {V : Type} : Insert string V (odict V) :=
  fun k v d => odict_of (assoc_set k v (items d)).
#[global] Instance odict_singleton {V : Type} : SingletonM string V (odict V) :=
  fun k v => odict_of [(k, v)].
#[global] Instance odict_dom {V : Type} : Dom (odict V) (gset string) :=
  fun d => list_to_set (items d).*1.
#[global] Instance odict_size {V : Type} : Size (odict V) :=
  fun d => length (items d).

(** ** numpy *)

(** The value an int64 holds after an overflow: 64-bit two's complement. *)
Definition wrap64 (z : Z) : Z := ((z + 2 ^ 63) mod 2 ^ 64 - 2 ^ 63)%Z.

(** [int(np.prod(shape))] for a tuple of ints that numpy stores as int64:
    the dimensions are multiplied left to right in int64, which wraps
    silently; the empty tuple gives 1. *)
Definition np_prod (shape : list Z) : Z :=
  foldl (fun acc d => wrap64 (acc * d)) 1%Z shape.

(** The product of the dimensions as integers, as the specification words
    [size]; [np_prod_exact] says when [np_prod] is this product. *)
Definition shape_product (shape : list Z) : Z := foldr Z.mul 1%Z shape.

(** The range of int64. *)
Definition int64_range (z : Z) : Prop := (- 2 ^ 63 <= z < 2 ^ 63)%Z.

(** [np.arange(size)]: empty when [size] is not positive. *)
Definition np_arange (size : Z) : list Z := seqZ 0 size.

(** [np.ones(size)]: numpy rejects a negative length. *)
Definition np_ones (size : Z) : result (list float) :=
  if (size <? 0)%Z then Raise (ValueError "negative dimensions are not allowed")
  else Ok (replicate (Z.to_nat size) 1%float).

(** ** The component *)

(** The option [loc], declared with [values=('initial', 'final')]. *)
Inductive Loc := initial | final.

Definition loc_str (l : Loc) : string :=
  match l with
  | initial => "initial"
  | final => "final"
  end.

(** The dictionary [kwargs] that [_add_constraint] stores, one field per key.
    [shape] is a tuple of ints. *)
Record kwargs := {
  shape : list Z;
  units : option string;
  res_units : option string;
  desc : string;
  lower : option bound;
  upper : option bound;
  equals : option bound;
  scaler : option float;
  adder : option float;
  ref : option float;
  ref0 : option float;
  linear : bool;
  res_ref : float;
  distributed : bool
}.

Definition py_str (o : option string) : pyval := from_option PStr PNone o.
Definition py_float (o : option float) : pyval := from_option PFloat PNone o.
Definition py_bound (o : option bound) : pyval :=
  match o with
  | None => PNone
  | Some (BFloat x) => PFloat x
  | Some (BArray a) => PArray a
  end.

(** [kwargs] seen as the Python dictionary it is, keys in source order. *)
Definition kwargs_dict (kw : kwargs) : dict :=
  [ ("shape", PTuple (shape kw)); ("units", py_str (units kw));
    ("res_units", py_str (res_units kw)); ("desc", PStr (desc kw));
    ("lower", py_bound (lower kw)); ("upper", py_bound (upper kw));
    ("equals", py_bound (equals kw));
    ("scaler", py_float (scaler kw)); ("adder", py_float (adder kw));
    ("ref", py_float (ref kw)); ("ref0", py_float (ref0 kw));
    ("linear", PBool (linear kw));
    ("res_ref", PFloat (res_ref kw)); ("distributed", PBool (distributed kw)) ].

(** One value of the dictionary [self._vars]. *)
Record var_options := {
  input_name : string;
  output_name : string;
  var_shape : list Z
}.

(** A call to a primitive inherited from [ExplicitComponent]. *)
Inductive call :=
| add_input (name : string) (kw : dict)
| add_output (name : string) (kw : dict)
| add_constraint (name : string) (kw : dict)
| declare_partials (of_ wrt : string) (val : list float) (rows cols : list Z).

(** The state of a component: the option [loc], the registry
    [_constraints], the dictionary [_vars] and the log of the calls made to
    the inherited primitives. *)
Record BoundaryConstraintComp := {
  loc : Loc;
  _constraints : list (string * kwargs);
  _vars : odict var_options;
  calls : list call
}.

(** [self.<primitive>(...)]: the call is appended to the log. *)
Definition invoke (c : call) (self : BoundaryConstraintComp) : BoundaryConstraintComp :=
  {| loc := loc self; _constraints := _constraints self; _vars := _vars self;
     calls := calls self ++ [c] |}.

(** [BoundaryConstraintComp(loc=l)]: [initialize] on a new instance. *)
Definition initialize (l : Loc) : BoundaryConstraintComp :=
  {| loc := l; _constraints := []; _vars := ∅; calls := [] |}.

(** ['{0}_value_in:{1}'.format(loc, name)] and ['{0}_value:{1}'.format(loc, name)] *)
Definition input_name_of (l : Loc) (name : string) : string :=
  loc_str l +:+ "_value_in:" +:+ name.
Definition output_name_of (l : Loc) (name : string) : string :=
  loc_str l +:+ "_value:" +:+ name.

Definition is_None {A : Type} (o : option A) : bool :=
  match o with None => true | Some _ => false end.

(** The body of the first loop of [setup], for one [(name, kwargs)]. *)
Definition setup_constraint (self : BoundaryConstraintComp) (c : string * kwargs)
  : result BoundaryConstraintComp :=
  let '(name, kwargs) := c in
  let input_name := input_name_of (loc self) name in
  let output_name := output_name_of (loc self) name in
  let self :=
    {| loc := loc self; _constraints := _constraints self;
       _vars := <[name := {| input_name := input_name;
                             output_name := output_name;
                             var_shape := shape kwargs |}]> (_vars self);
       calls := calls self |} in
  input_kwargs ← dict_select (kwargs_dict kwargs) ["units"; "shape"; "desc"];
  let self := invoke (add_input input_name input_kwargs) self in
  output_kwargs ← dict_select (kwargs_dict kwargs) ["units"; "shape"; "desc"];
  let self := invoke (add_output output_name output_kwargs) self in
  let constraint_kwargs :=
    dict_select_default (kwargs_dict kwargs)
      ["lower"; "upper"; "equals"; "ref"; "ref0"; "adder"; "scaler"; "indices";
       "linear"] in
  Ok (invoke (add_constraint output_name constraint_kwargs) self).

(** The body of the second loop of [setup], for one item of [self._vars]. *)
Definition setup_partials (self : BoundaryConstraintComp) (v : string * var_options)
  : result BoundaryConstraintComp :=
  let '(name, options) := v in
  let size := np_prod (var_shape options) in
  let rs := np_arange size in
  let cs := np_arange size in
  val ← np_ones size;
  Ok (invoke (declare_partials (output_name options) (input_name options) val rs cs)
        self).

Definition setup (self : BoundaryConstraintComp) : result BoundaryConstraintComp :=
  self ← for_each setup_constraint self (_constraints self);
  for_each setup_partials self (items (_vars self)).

(** The body of the loop of [compute]: [outputs[output_name] =
    inputs[input_name]]; [inputs[k]] raises when [k] is absent. *)
Definition compute_var (inputs : gmap string ndarray) (outputs : gmap string ndarray)
    (v : string * var_options) : result (gmap string ndarray) :=
  let '(name, options) := v in
  match inputs !! input_name options with
  | Some x => Ok (<[output_name options := x]> outputs)
  | None => Raise (KeyError (input_name options))
  end.

Definition compute (self : BoundaryConstraintComp)
    (inputs outputs : gmap string ndarray) : result (gmap string ndarray) :=
  for_each (compute_var inputs) outputs (items (_vars self)).

Section Declaration.

(** [INF_BOUND] comes from [dymos.utils.constants], which is not part of the
    sources at hand: it is a parameter of the development. *)
Variable INF_BOUND : float.

Definition _add_constraint (self : BoundaryConstraintComp) (name : string)
    (shape : list Z) (units res_units : option string) (desc : string)
    (lower upper equals : option bound)
    (scaler adder ref ref0 : option float)
    (linear : bool) (res_ref : float) (distributed : bool)
  : result BoundaryConstraintComp :=
  let lower :=
    if negb (is_None upper) && is_None lower
    then Some (BFloat (- INF_BOUND)%float) else lower in
  let upper :=
    if negb (is_None lower) && is_None upper
    then Some (BFloat INF_BOUND) else upper in
  let kwargs :=
    {| shape := shape; units := units; res_units := res_units; desc := desc;
       lower := lower; upper := upper; equals := equals;
       scaler := scaler; adder := adder; ref := ref; ref0 := ref0;
       linear := linear; res_ref := res_ref; distributed := distributed |} in
  Ok {| loc := loc self;
        _constraints := _constraints self ++ [(name, kwargs)];
        _vars := _vars self;
        calls := calls self |}.

(** A declaration as the caller writes it: the name and the arguments. *)
Definition declare (self : BoundaryConstraintComp) (d : string * kwargs)
  : result BoundaryConstraintComp :=
  let '(name, a) := d in
  _add_constraint self name (shape a) (units a) (res_units a) (desc a)
    (lower a) (upper a) (equals a) (scaler a) (adder a) (ref a) (ref0 a)
    (linear a) (res_ref a) (distributed a).

(** A new component, a series of declarations, then the build. *)
Definition build (l : Loc) (ds : list (string * kwargs))
  : result BoundaryConstraintComp :=
  self ← for_each declare (initialize l) ds;
  setup self.

(** The bound-normalization policy as the specification words it, case by
    case; [_add_constraint_eq] relates it to the two conditional assignments
    of the source. *)
Definition normalize_bounds (lower upper : option bound)
  : option bound * option bound :=
  match lower, upper with
  | None, Some u => (Some (BFloat (- INF_BOUND)%float), Some u)
  | Some l, None => (Some l, Some (BFloat INF_BOUND))
  | None, None => (None, None)
  | Some l, Some u => (Some l, Some u)
  end.

(** The registry entry that a declaration leaves. *)
Definition registered (d : string * kwargs) : string * kwargs :=
  (d.1,
   {| shape := shape d.2; units := units d.2; res_units := res_units d.2;
      desc := desc d.2;
      lower := (normalize_bounds (lower d.2) (upper d.2)).1;
      upper := (normalize_bounds (lower d.2) (upper d.2)).2;
      equals := equals d.2;
      scaler := scaler d.2; adder := adder d.2; ref := ref d.2; ref0 := ref0 d.2;
      linear := linear d.2; res_ref := res_ref d.2;
      distributed := distributed d.2 |}).

End Declaration.

(** The default arguments of [_add_constraint]. *)
Definition default_args : kwargs :=
  {| shape := [1%Z]; units := None; res_units := None; desc := "";
     lower := None; upper := None; equals := None;
     scaler := None; adder := None; ref := Some 1%float; ref0 := Some 0%float;
     linear := false; res_ref := 1%float; distributed := false |}.

(** Sample declarations, after the boundary constraints of the
    min-time-climb example ([ex_min_time_climb.py]): [h] equal to 20000 m,
    and a flight-path angle with a lower bound only. *)
Definition climb_h : string * kwargs :=
  ("h", {| shape := [1%Z]; units := Some "m"; res_units := None; desc := "";
           lower := None; upper := None; equals := Some (BFloat 20000%float);
           scaler := None; adder := None;
           ref := Some 1%float; ref0 := Some 0%float;
           linear := false; res_ref := 1%float; distributed := false |}).

Definition climb_gam : string * kwargs :=
  ("gam", {| shape := [2%Z; 2%Z]; units := Some "rad"; res_units := None;
             desc := "";
             lower := Some (BFloat (-1.5)%float); upper := None; equals := None;
             scaler := None; adder := None;
             ref := Some 1%float; ref0 := Some 0%float;
             linear := false; res_ref := 1%float; distributed := false |}).

(** [gam] with [equals] set next to its lower bound. *)
Definition climb_gam_equals : string * kwargs :=
  ("gam", {| shape := [1%Z]; units := Some "rad"; res_units := None; desc := "";
             lower := Some (BFloat (-1.5)%float); upper := None;
             equals := Some (BFloat 0%float);
             scaler := None; adder := None;
             ref := Some 1%float; ref0 := Some 0%float;
             linear := false; res_ref := 1%float; distributed := false |}).

(** A declaration whose shape has a zero dimension. *)
Definition empty_z : string * kwargs :=
  ("z", {| shape := [0%Z]; units := None; res_units := None; desc := "";
           lower := None; upper := None; equals := None;
           scaler := None; adder := None;
           ref := Some 1%float; ref0 := Some 0%float;
           linear := false; res_ref := 1%float; distributed := false |}).

(** Two shapes whose product of dimensions leaves the int64 range: to 0,
    and to a negative value. *)
Definition wide_w : string * kwargs :=
  ("w", {| shape := [4294967296%Z; 4294967296%Z]; units := None;
           res_units := None; desc := "";
           lower := None; upper := None; equals := None;
           scaler := None; adder := None;
           ref := Some 1%float; ref0 := Some 0%float;
           linear := false; res_ref := 1%float; distributed := false |}).

Definition wide_q : string * kwargs :=
  ("q", {| shape := [3037000500%Z; 3037000500%Z]; units := None;
           res_units := None; desc := "";
           lower := None; upper := None; equals := None;
           scaler := None; adder := None;
           ref := Some 1%float; ref0 := Some 0%float;
           linear := false; res_ref := 1%float; distributed := false |}).

(** The component that building [climb_h] at [final] gives. *)
Definition built_h : BoundaryConstraintComp :=
  {| loc := final;
     _constraints := [climb_h];
     _vars := {[ "h" := {| input_name := "final_value_in:h";
                           output_name := "final_value:h";
                           var_shape := [1%Z] |} ]};
     calls :=
       [add_input "final_value_in:h"
          [("units", PStr "m"); ("shape", PTuple [1%Z]); ("desc", PStr "")];
        add_output "final_value:h"
          [("units", PStr "m"); ("shape", PTuple [1%Z]); ("desc", PStr "")];
        add_constraint "final_value:h"
          [("lower", PNone); ("upper", PNone); ("equals", PFloat 20000%float);
           ("ref", PFloat 1%float); ("ref0", PFloat 0%float); ("adder", PNone);
           ("scaler", PNone); ("indices", PNone);
           ("linear", PBool false)];
        declare_partials "final_value:h" "final_value_in:h"
          [1%float] [0%Z] [0%Z]] |}.

Definition inputs_h : gmap string ndarray :=
  {[ "final_value_in:h" := {| nd_shape := [1%Z]; nd_data := [19500%float] |} ]}.

(** ** Views of the call log *)

(** The [(name, keywords)] of the [add_input], [add_output] and
    [add_constraint] calls of a log, in order. *)
Definition input_calls (cs : list call) : list (string * dict) :=
  omap (fun c => match c with add_input n kw => Some (n, kw) | _ => None end) cs.
Definition output_calls (cs : list call) : list (string * dict) :=
  omap (fun c => match c with add_output n kw => Some (n, kw) | _ => None end) cs.
Definition constraint_calls (cs : list call) : list (string * dict) :=
  omap (fun c => match c with add_constraint n kw => Some (n, kw) | _ => None end) cs.

(** The [(val, rows, cols)] of the [declare_partials] calls of a log for one
    [(of, wrt)] pair. *)
Definition partials_calls (cs : list call) (o w : string)
  : list (list float * list Z * list Z) :=
  omap (fun c =>
          match c with
          | declare_partials o' w' val rows cols =>
              if String.eqb o' o && String.eqb w' w then Some (val, rows, cols)
              else None
          | _ => None
          end) cs.

(** The entries [(row, col, value)] of a derivative given in triplet form. *)
Definition triplets (val : list float) (rows cols : list Z) : list (Z * Z * float) :=
  zip (zip rows cols) val.

(** What a build leaves behind for its caller. *)
Definition build_result (r : result BoundaryConstraintComp)
  : result (odict var_options * list call) :=
  (fun c => (_vars c, calls c)) <$> r.

(** ** What one iteration of each loop does *)

Definition var_of (l : Loc) (c : string * kwargs) : var_options :=
  {| input_name := input_name_of l c.1;
     output_name := output_name_of l c.1;
     var_shape := shape c.2 |}.

Definition variable_kwargs (kw : kwargs) : dict :=
  [("units", py_str (units kw)); ("shape", PTuple (shape kw)); ("desc", PStr (desc kw))].

Definition constraint_kwargs (kw : kwargs) : dict :=
  [("lower", py_bound (lower kw)); ("upper", py_bound (upper kw));
   ("equals", py_bound (equals kw)); ("ref", py_float (ref kw));
   ("ref0", py_float (ref0 kw)); ("adder", py_float (adder kw));
   ("scaler", py_float (scaler kw)); ("indices", PNone);
   ("linear", PBool (linear kw))].

Definition emitted (l : Loc) (c : string * kwargs) : list call :=
  [add_input (input_name_of l c.1) (variable_kwargs c.2);
   add_output (output_name_of l c.1) (variable_kwargs c.2);
   add_constraint (output_name_of l c.1) (constraint_kwargs c.2)].

Definition partials_call (v : string * var_options) : call :=
  let size := np_prod (var_shape v.2) in
  declare_partials (output_name v.2) (input_name v.2)
    (replicate (Z.to_nat size) 1%float) (seqZ 0 size) (seqZ 0 size).

Definition vars_of (l : Loc) (cs : list (string * kwargs))
    (m : odict var_options) : odict var_options :=
  foldl (fun m c => <[c.1 := var_of l c]> m) m cs.

(** The shapes for which the second loop of [setup] goes through. *)
Definition buildable (cs : list (string * kwargs)) : Prop :=
  Forall (fun c => (0 <= np_prod (shape c.2))%Z) cs.

(** ** Dictionaries *)

Lemma odict_eq {V : Type} (d1 d2 : odict V) : items d1 = items d2 -> d1 = d2.
Proof.
  destruct d1 as [l1 H1], d2 as [l2 H2]. simpl. intros ->. f_equal.
  apply proof_irrel.
Qed.

Lemma items_keys_NoDup {V : Type} (d : odict V) : NoDup (items d).*1.
Proof. apply (bool_decide_unpack _), items_wf. Qed.

Lemma items_NoDup {V : Type} (d : odict V) : NoDup (items d).
Proof. eapply NoDup_fmap_1, items_keys_NoDup. Qed.

Lemma items_odict_of {V : Type} (l : list (string * V)) :
  NoDup l.*1 -> items (odict_of l) = l.
Proof.
  intros Hnd. unfold odict_of.
  assert (forall b (mk : Is_true b -> odict V),
             (forall H, items (mk H) = l) -> b = true ->
             items (match b as b0 return (Is_true b0 -> odict V) -> odict V with
                    | true => fun mk0 => mk0 I
                    | false => fun _ => ODict [] I
                    end mk) = l) as Hgen.
  { intros [] mk Hmk Hb; [apply Hmk | done]. }
  apply (Hgen _ (ODict l)); [done|]. by apply bool_decide_eq_true.
Qed.

Lemma assoc_get_None {V : Type} (l : list (string * V)) k :
  assoc_get l k = None <-> k ∉ l.*1.
Proof.
  induction l as [|[k' v'] l IH]; simpl.
  - split; [intros _; apply not_elem_of_nil | done].
  - rewrite not_elem_of_cons. destruct (String.eqb_spec k' k) as [->|Hne].
    + split; [done | by intros [? _]].
    + rewrite IH. split; [by split | by intros [_ ?]].
Qed.

Lemma assoc_get_Some {V : Type} (l : list (string * V)) k v :
  NoDup l.*1 -> assoc_get l k = Some v <-> (k, v) ∈ l.
Proof.
  induction l as [|[k' v'] l IH]; simpl; intros Hnd.
  - split; [done | by intros ?%elem_of_nil].
  - apply NoDup_cons in Hnd as [Hk' Hnd]. rewrite elem_of_cons.
    destruct (String.eqb_spec k' k) as [->|Hne].
    + split; [by intros [= ->]; left|].
      intros [[= ->]|Hin]; [done|]. exfalso. apply Hk'.
      by apply (list_elem_of_fmap_2 fst) in Hin.
    + rewrite IH by done. split; [by right|]. by intros [[= ? ?]|?].
Qed.

Lemma assoc_set_notin {V : Type} k (v : V) l :
  k ∉ l.*1 -> assoc_set k v l = l ++ [(k, v)].
Proof.
  induction l as [|[k' v'] l IH]; simpl; [done|].
  rewrite not_elem_of_cons. intros [Hne Hk].
  destruct (String.eqb_spec k' k) as [->|_]; [done|]. by rewrite IH.
Qed.

Lemma assoc_set_keys_in {V : Type} k (v : V) l :
  k ∈ l.*1 -> (assoc_set k v l).*1 = l.*1.
Proof.
  induction l as [|[k' v'] l IH]; simpl; [by intros ?%elem_of_nil|].
  destruct (String.eqb_spec k' k) as [->|Hne]; [done|].
  intros [?|Hin]%elem_of_cons; [congruence|]. simpl. f_equal. by apply IH.
Qed.

Lemma assoc_set_NoDup {V : Type} k (v : V) l :
  NoDup l.*1 -> NoDup (assoc_set k v l).*1.
Proof.
  intros Hnd. destruct (decide (k ∈ l.*1)) as [Hin|Hout].
  - by rewrite assoc_set_keys_in.
  - rewrite assoc_set_notin, fmap_app by done. apply NoDup_app.
    split; [done|]. split; [|apply NoDup_singleton].
    simpl. intros x Hx ->%list_elem_of_singleton. done.
Qed.

Lemma assoc_get_set_eq {V : Type} k (v : V) l :
  assoc_get (assoc_set k v l) k = Some v.
Proof.
  induction l as [|[k' v'] l IH]; simpl; [by rewrite String.eqb_refl|].
  destruct (String.eqb_spec k' k) as [->|Hne]; simpl.
  - by rewrite String.eqb_refl.
  - by apply String.eqb_neq in Hne as ->.
Qed.

Lemma assoc_get_set_ne {V : Type} k k' (v : V) l :
  k <> k' -> assoc_get (assoc_set k v l) k' = assoc_get l k'.
Proof.
  intros Hne. induction l as [|[k0 v0] l IH]; simpl.
  - by apply String.eqb_neq in Hne as ->.
  - destruct (String.eqb_spec k0 k) as [->|Hne0]; simpl.
    + apply String.eqb_neq in Hne. by rewrite Hne.
    + by rewrite IH.
Qed.

Section odict.
Context {V : Type}.
Implicit Types (d : odict V) (k : string) (v : V).

Lemma items_insert d k v : items (<[k := v]> d) = assoc_set k v (items d).
Proof. apply items_odict_of, assoc_set_NoDup, items_keys_NoDup. Qed.

Lemma items_empty : items (∅ : odict V) = [].
Proof. reflexivity. Qed.

Lemma items_singleton k v : items ({[ k := v ]} : odict V) = [(k, v)].
Proof. reflexivity. Qed.

Lemma length_items d : length (items d) = size d.
Proof. reflexivity. Qed.

Lemma odict_lookup_insert_eq d k v : <[k := v]> d !! k = Some v.
Proof.
  unfold lookup, odict_lookup. rewrite items_insert. apply assoc_get_set_eq.
Qed.

Lemma odict_lookup_insert_ne d k k' v : k <> k' -> <[k := v]> d !! k' = d !! k'.
Proof.
  intros Hne. unfold lookup, odict_lookup. rewrite items_insert.
  by apply assoc_get_set_ne.
Qed.

Lemma odict_lookup_empty k : (∅ : odict V) !! k = None.
Proof. reflexivity. Qed.

Lemma odict_lookup_singleton_Some k k' v v' :
  ({[ k := v ]} : odict V) !! k' = Some v' <-> k = k' /\ v = v'.
Proof.
  unfold lookup, odict_lookup. rewrite items_singleton. simpl.
  destruct (String.eqb_spec k k') as [->|Hne]; split.
  - by intros [= ->].
  - by intros [_ ->].
  - done.
  - by intros [? _].
Qed.

Lemma elem_of_items d k v : (k, v) ∈ items d <-> d !! k = Some v.
Proof. symmetry. apply assoc_get_Some, items_keys_NoDup. Qed.

Lemma odict_lookup_None d k : d !! k = None <-> k ∉ (items d).*1.
Proof. apply assoc_get_None. Qed.

Lemma odict_keys_insert_in d k v :
  is_Some (d !! k) -> (items (<[k := v]> d)).*1 = (items d).*1.
Proof.
  intros Hk. rewrite items_insert. apply assoc_set_keys_in.
  destruct (decide (k ∈ (items d).*1)) as [|Hout]; [done|].
  apply odict_lookup_None in Hout. rewrite Hout in Hk. by destruct Hk.
Qed.

Lemma odict_dom_empty : dom (∅ : odict V) = (∅ : gset string).
Proof. reflexivity. Qed.

Lemma odict_dom_insert d k v :
  dom (<[k := v]> d) = ({[ k ]} ∪ dom d : gset string).
Proof.
  unfold dom, odict_dom. destruct (decide (k ∈ (items d).*1)) as [Hin|Hout].
  - rewrite items_insert, assoc_set_keys_in by done.
    apply set_eq. intros x. rewrite elem_of_union, elem_of_singleton.
    rewrite elem_of_list_to_set. split; [by right|]. by intros [->|?].
  - rewrite items_insert, assoc_set_notin, fmap_app, list_to_set_app_L by done.
    simpl. rewrite (right_id_L ∅ (∪)). apply (comm_L (∪)).
Qed.

Lemma odict_size_dom d : size (dom d : gset string) = size d.
Proof.
  unfold dom, odict_dom, size at 2, odict_size.
  rewrite size_list_to_set by apply items_keys_NoDup. apply length_fmap.
Qed.

(** Two dictionaries with the same keys in the same order and the same
    values are the same dictionary. *)
Lemma odict_ext d1 d2 :
  (items d1).*1 = (items d2).*1 -> (forall k, d1 !! k = d2 !! k) -> d1 = d2.
Proof.
  intros Hkeys Hlook. apply odict_eq.
  pose proof (items_keys_NoDup d1) as Hnd1.
  unfold lookup, odict_lookup in Hlook.
  revert Hkeys Hlook Hnd1. generalize (items d1) (items d2). clear d1 d2.
  induction l as [|[k1 v1] l1 IH]; intros [|[k2 v2] l2]; simpl; try done.
  intros [= -> Hkeys] Hlook [Hk Hnd]%NoDup_cons.
  pose proof (Hlook k2) as Hk2. rewrite String.eqb_refl in Hk2.
  injection Hk2 as ->. f_equal. apply IH; [done| |done].
  intros k. specialize (Hlook k).
  destruct (String.eqb_spec k2 k) as [->|_]; [|done].
  transitivity (@None V); [|symmetry]; apply assoc_get_None; [done|].
  unfold fmap. by rewrite <- Hkeys.
Qed.

End odict.

(** ** The product of a shape *)

Lemma wrap64_mod x y :
  (x mod 2 ^ 64 = y mod 2 ^ 64)%Z -> wrap64 x = wrap64 y.
Proof.
  intros Hxy. unfold wrap64. f_equal.
  rewrite <- (Z.add_mod_idemp_l x), <- (Z.add_mod_idemp_l y) by lia.
  by rewrite Hxy.
Qed.

Lemma wrap64_range z : int64_range (wrap64 z).
Proof.
  unfold int64_range, wrap64.
  pose proof (Z.mod_pos_bound (z + 2 ^ 63) (2 ^ 64)). lia.
Qed.

Lemma wrap64_small z : int64_range z -> wrap64 z = z.
Proof.
  unfold int64_range, wrap64. intros Hz. rewrite Z.mod_small; lia.
Qed.

Lemma wrap64_idemp_mod z : (wrap64 z mod 2 ^ 64 = z mod 2 ^ 64)%Z.
Proof.
  unfold wrap64.
  rewrite <- (Z.add_opp_r _ (2 ^ 63)), Z.add_mod_idemp_l by lia.
  f_equal. lia.
Qed.

Lemma np_prod_from a (s : list Z) :
  foldl (fun acc d => wrap64 (acc * d)) (wrap64 a) s
  = wrap64 (a * shape_product s).
Proof.
  revert a. induction s as [|d s IH]; intros a; simpl.
  - by rewrite Z.mul_1_r.
  - rewrite IH. apply wrap64_mod.
    rewrite <- Z.mul_assoc.
    rewrite (Z.mul_mod (wrap64 a)), wrap64_idemp_mod, <- Z.mul_mod by lia.
    done.
Qed.

(** [np_prod] is the product of the dimensions reduced to int64. *)
Lemma np_prod_wrap (s : list Z) : np_prod s = wrap64 (shape_product s).
Proof.
  unfold np_prod. change 1%Z with (wrap64 1) at 1.
  by rewrite np_prod_from, Z.mul_1_l.
Qed.

(** It is the product itself when that fits in an int64. *)
Lemma np_prod_exact (s : list Z) :
  int64_range (shape_product s) -> np_prod s = shape_product s.
Proof. intros Hs. rewrite np_prod_wrap. by apply wrap64_small. Qed.

Lemma shape_product_zero (s : list Z) : 0%Z ∈ s -> shape_product s = 0%Z.
Proof.
  unfold shape_product. induction s as [|x xs IH]; intros Hin.
  - by apply elem_of_nil in Hin.
  - apply elem_of_cons in Hin as [<-|Hin]; simpl; [done|]. rewrite IH by done. lia.
Qed.

Lemma np_prod_zero (s : list Z) : 0%Z ∈ s -> np_prod s = 0%Z.
Proof. intros Hin. by rewrite np_prod_wrap, shape_product_zero. Qed.


Lemma for_each_app {S A : Type} (body : S -> A -> result S) s l1 l2 :
  for_each body s (l1 ++ l2) = (s' ← for_each body s l1; for_each body s' l2).
Proof.
  revert s. induction l1 as [|x l1 IH]; intros s; simpl; [done|].
  destruct (body s x) as [s'|e]; simpl; [apply IH | done].
Qed.

Lemma setup_constraint_eq self c :
  setup_constraint self c =
  Ok {| loc := loc self; _constraints := _constraints self;
        _vars := <[c.1 := var_of (loc self) c]> (_vars self);
        calls := calls self ++ emitted (loc self) c |}.
Proof.
  destruct c as [name kw]. unfold setup_constraint, invoke, emitted. cbn.
  by rewrite <- !app_assoc.
Qed.

Lemma setup_constraints_eq cs self :
  for_each setup_constraint self cs =
  Ok {| loc := loc self; _constraints := _constraints self;
        _vars := vars_of (loc self) cs (_vars self);
        calls := calls self ++ flat_map (emitted (loc self)) cs |}.
Proof.
  revert self. induction cs as [|c cs IH]; intros self.
  - simpl. rewrite app_nil_r. by destruct self.
  - cbn [for_each]. rewrite setup_constraint_eq. cbn [mbind result_bind].
    rewrite IH. cbn [loc _constraints _vars calls vars_of foldl flat_map].
    by rewrite <- app_assoc.
Qed.

Lemma setup_partials_ok self v :
  (0 <= np_prod (var_shape v.2))%Z ->
  setup_partials self v = Ok (invoke (partials_call v) self).
Proof.
  intros Hsz. destruct v as [name o]. unfold setup_partials, np_ones, np_arange.
  simpl in *. by rewrite (proj2 (Z.ltb_ge _ _) Hsz).
Qed.

Lemma setup_partials_neg self v :
  (np_prod (var_shape v.2) < 0)%Z ->
  setup_partials self v = Raise (ValueError "negative dimensions are not allowed").
Proof.
  intros Hsz. destruct v as [name o]. unfold setup_partials, np_ones.
  simpl in *. by rewrite (proj2 (Z.ltb_lt _ _) Hsz).
Qed.

Lemma setup_partials_loop_ok vs self :
  Forall (fun v => (0 <= np_prod (var_shape v.2))%Z) vs ->
  for_each setup_partials self vs =
  Ok {| loc := loc self; _constraints := _constraints self; _vars := _vars self;
        calls := calls self ++ (partials_call <$> vs) |}.
Proof.
  intros Hvs. revert self. induction Hvs as [|v vs Hv _ IH]; intros self.
  - simpl. rewrite app_nil_r. by destruct self.
  - cbn [for_each]. rewrite setup_partials_ok by done. cbn [mbind result_bind].
    rewrite IH. unfold invoke. cbn [loc _constraints _vars calls fmap list_fmap].
    by rewrite <- app_assoc.
Qed.

Lemma setup_partials_loop_raise vs self :
  Exists (fun v => (np_prod (var_shape v.2) < 0)%Z) vs ->
  for_each setup_partials self vs =
  Raise (ValueError "negative dimensions are not allowed").
Proof.
  revert self. induction vs as [|v vs IH]; intros self Hex.
  - by apply Exists_nil in Hex.
  - cbn [for_each].
    destruct (Z.lt_ge_cases (np_prod (var_shape v.2)) 0) as [Hneg|Hpos].
    + by rewrite setup_partials_neg.
    + rewrite setup_partials_ok by done. cbn [mbind result_bind].
      apply IH. apply Exists_cons in Hex as [Hv|Hvs]; [lia | done].
Qed.

(** ** The variables a registry gives rise to *)

Lemma vars_of_snoc l cs c m :
  vars_of l (cs ++ [c]) m = <[c.1 := var_of l c]> (vars_of l cs m).
Proof. unfold vars_of. by rewrite foldl_app. Qed.

(** A name declared in [cs] maps to the variable of its last declaration. *)
Lemma vars_of_last l pre n kw post m :
  n ∉ post.*1 ->
  vars_of l (pre ++ (n, kw) :: post) m !! n = Some (var_of l (n, kw)).
Proof.
  induction post as [|c post IH] using rev_ind; intros Hn.
  - rewrite vars_of_snoc. apply odict_lookup_insert_eq.
  - rewrite fmap_app, not_elem_of_app in Hn. destruct Hn as [Hpost Hc].
    rewrite app_comm_cons, app_assoc, vars_of_snoc.
    rewrite odict_lookup_insert_ne; [by apply IH|].
    intros Heq. apply Hc. simpl. rewrite Heq. set_solver.
Qed.

Lemma vars_of_fresh l cs n m :
  n ∉ cs.*1 -> vars_of l cs m !! n = m !! n.
Proof.
  induction cs as [|c cs IH] using rev_ind; intros Hn; [done|].
  rewrite fmap_app, not_elem_of_app in Hn. destruct Hn as [Hcs Hc].
  rewrite vars_of_snoc, odict_lookup_insert_ne; [by apply IH|].
  intros Heq. apply Hc. simpl. rewrite Heq. set_solver.
Qed.

(** Every name of [cs] splits [cs] at its last declaration. *)
Lemma last_declaration (cs : list (string * kwargs)) n :
  n ∈ cs.*1 ->
  exists pre kw post, cs = pre ++ (n, kw) :: post /\ (n ∉ post.*1).
Proof.
  induction cs as [|[n' kw'] cs IH]; intros Hn; [by apply elem_of_nil in Hn|].
  destruct (decide (n ∈ cs.*1)) as [Hin|Hout].
  - destruct (IH Hin) as (pre & kw & post & -> & Hpost).
    by exists ((n', kw') :: pre), kw, post.
  - simpl in Hn. apply elem_of_cons in Hn as [->|Hin]; [|done].
    by exists [], kw', cs.
Qed.

Lemma vars_of_lookup l cs n v :
  vars_of l cs ∅ !! n = Some v ->
  exists pre kw post,
    cs = pre ++ (n, kw) :: post /\ (n ∉ post.*1) /\ v = var_of l (n, kw).
Proof.
  intros Hv. destruct (decide (n ∈ cs.*1)) as [Hin|Hout].
  - destruct (last_declaration cs n Hin) as (pre & kw & post & -> & Hpost).
    rewrite vars_of_last in Hv by done. exists pre, kw, post. naive_solver.
  - rewrite vars_of_fresh in Hv by done. by rewrite odict_lookup_empty in Hv.
Qed.

Lemma vars_of_names l cs n v :
  vars_of l cs ∅ !! n = Some v ->
  input_name v = input_name_of l n /\ output_name v = output_name_of l n.
Proof.
  intros Hv. by destruct (vars_of_lookup l cs n v Hv) as (? & ? & ? & _ & _ & ->).
Qed.

Lemma vars_of_buildable l cs :
  buildable cs ->
  Forall (fun v : string * var_options => (0 <= np_prod (var_shape v.2))%Z)
    (items (vars_of l cs ∅)).
Proof.
  intros Hcs. apply Forall_forall. intros [n v] Hv.
  apply elem_of_items in Hv.
  destruct (vars_of_lookup l cs n v Hv) as (pre & kw & post & -> & _ & ->).
  unfold buildable in Hcs. rewrite Forall_forall in Hcs.
  apply (Hcs (n, kw)). set_solver.
Qed.

Lemma string_app_inj (p s1 s2 : string) : p +:+ s1 = p +:+ s2 -> s1 = s2.
Proof. induction p as [|a p IH]; simpl; [done|]. intros [=]. by apply IH. Qed.

Lemma input_name_of_inj l n1 n2 : input_name_of l n1 = input_name_of l n2 -> n1 = n2.
Proof.
  unfold input_name_of. intros H.
  by apply string_app_inj, string_app_inj in H.
Qed.

Lemma output_name_of_inj l n1 n2 :
  output_name_of l n1 = output_name_of l n2 -> n1 = n2.
Proof.
  unfold output_name_of. intros H.
  by apply string_app_inj, string_app_inj in H.
Qed.

(** In a list without repeated keys, one key selects one element. *)
Lemma filter_unique_key {A : Type} (l : list (string * A)) (x : string * A) :
  NoDup l.*1 -> x ∈ l -> filter (fun y => y.1 = x.1) l = [x].
Proof.
  induction l as [|y l IH]; intros Hnd Hx; [by apply elem_of_nil in Hx|].
  simpl in Hnd. apply NoDup_cons in Hnd as [Hy Hnd].
  apply elem_of_cons in Hx as [->|Hx].
  - rewrite filter_cons_True by done. f_equal.
    destruct (filter (fun z => z.1 = y.1) l) as [|z zs] eqn:Hf; [done|].
    exfalso. assert (z ∈ filter (fun z => z.1 = y.1) l) as Hz
      by (rewrite Hf; left).
    apply list_elem_of_filter in Hz as [Hzy Hz].
    apply Hy. rewrite <- Hzy. by apply list_elem_of_fmap_2.
  - rewrite filter_cons_False; [by apply IH|].
    intros Heq. apply Hy. rewrite Heq. by apply list_elem_of_fmap_2.
Qed.

(** Filtering the image of a list counts like filtering the list. *)
Lemma filter_fmap_length {A B : Type} (f : A -> B)
    (P : B -> Prop) `{!forall x, Decision (P x)}
    (Q : A -> Prop) `{!forall x, Decision (Q x)} (l : list A) :
  (forall x, P (f x) <-> Q x) ->
  length (filter P (f <$> l)) = length (filter Q l).
Proof.
  intros HPQ. induction l as [|x l IH]; [done|].
  rewrite fmap_cons, !filter_cons.
  destruct (decide (P (f x))) as [HP|HP], (decide (Q x)) as [HQ|HQ]; simpl;
    try (by rewrite IH); exfalso; by apply HPQ in HP || apply HPQ in HQ.
Qed.


Section Correctness.

Variable INF_BOUND : float.

(** The two conditional assignments of [_add_constraint] implement
    [normalize_bounds]. *)
Lemma _add_constraint_eq self name shape units res_units desc lower upper equals
    scaler adder ref ref0 linear res_ref distributed :
  _add_constraint INF_BOUND self name shape units res_units desc lower upper
    equals scaler adder ref ref0 linear res_ref distributed =
  Ok {| loc := loc self;
        _constraints := _constraints self ++
          [registered INF_BOUND
             (name, {| shape := shape; units := units; res_units := res_units;
                       desc := desc; lower := lower; upper := upper;
                       equals := equals; scaler := scaler; adder := adder;
                       ref := ref; ref0 := ref0; linear := linear;
                       res_ref := res_ref; distributed := distributed |})];
        _vars := _vars self; calls := calls self |}.
Proof. by destruct lower, upper. Qed.

Lemma declare_eq self d :
  declare INF_BOUND self d =
  Ok {| loc := loc self;
        _constraints := _constraints self ++ [registered INF_BOUND d];
        _vars := _vars self; calls := calls self |}.
Proof. destruct d as [name []]. apply _add_constraint_eq. Qed.

Lemma declare_all_eq ds self :
  for_each (declare INF_BOUND) self ds =
  Ok {| loc := loc self;
        _constraints := _constraints self ++ (registered INF_BOUND <$> ds);
        _vars := _vars self; calls := calls self |}.
Proof.
  revert self. induction ds as [|d ds IH]; intros self.
  - simpl. rewrite app_nil_r. by destruct self.
  - cbn [for_each]. rewrite declare_eq. cbn [mbind result_bind]. rewrite IH.
    cbn [loc _constraints _vars calls fmap list_fmap].
    by rewrite <- app_assoc.
Qed.

Lemma vars_of_registered l ds m :
  vars_of l (registered INF_BOUND <$> ds) m = vars_of l ds m.
Proof.
  revert m. induction ds as [|d ds IH]; intros m; [done|].
  unfold vars_of in *. simpl. apply IH.
Qed.

Lemma buildable_registered ds :
  buildable (registered INF_BOUND <$> ds) <-> buildable ds.
Proof. unfold buildable. by rewrite Forall_fmap. Qed.

(** The result of a build whose shapes all have a non-negative size. *)
Lemma build_ok l ds :
  buildable ds ->
  build INF_BOUND l ds =
  Ok {| loc := l;
        _constraints := registered INF_BOUND <$> ds;
        _vars := vars_of l ds ∅;
        calls := flat_map (emitted l) (registered INF_BOUND <$> ds) ++
                 (partials_call <$> items (vars_of l ds ∅)) |}.
Proof.
  intros Hds. unfold build. rewrite declare_all_eq. cbn [mbind result_bind].
  unfold setup. rewrite setup_constraints_eq. cbn [mbind result_bind].
  cbn [initialize loc _constraints _vars calls app].
  rewrite vars_of_registered.
  rewrite setup_partials_loop_ok by by apply vars_of_buildable.
  done.
Qed.


(** ** Bound normalization (lines 115-116) *)

(** C1. When exactly one of [lower], [upper] is given, the registry entry
    that [_add_constraint] appends has the missing side set to the sentinel
    ([- INF_BOUND] for a missing lower bound, [INF_BOUND] for a missing upper
    bound) and the given side as it was given. *)
Theorem one_sided_bound_gets_sentinel self name shape units res_units desc
    (given : bound) equals scaler adder ref ref0 linear res_ref distributed :
  (exists kw,
      _add_constraint INF_BOUND self name shape units res_units desc
        None (Some given) equals scaler adder ref ref0 linear res_ref distributed
      = Ok {| loc := loc self; _constraints := _constraints self ++ [(name, kw)];
              _vars := _vars self; calls := calls self |}
      /\ lower kw = Some (BFloat (- INF_BOUND)%float)
      /\ upper kw = Some given)
  /\
  (exists kw,
      _add_constraint INF_BOUND self name shape units res_units desc
        (Some given) None equals scaler adder ref ref0 linear res_ref distributed
      = Ok {| loc := loc self; _constraints := _constraints self ++ [(name, kw)];
              _vars := _vars self; calls := calls self |}
      /\ lower kw = Some given
      /\ upper kw = Some (BFloat INF_BOUND)).
Proof. split; eexists; (split; [reflexivity|]); by split. Qed.

(** C2. When [lower] and [upper] are both [None], or both given, the registry
    entry that [_add_constraint] appends carries the pair unchanged. *)
Theorem two_sided_or_absent_bounds_unchanged self name shape units res_units desc
    (lo up : bound) equals scaler adder ref ref0 linear res_ref distributed :
  (exists kw,
      _add_constraint INF_BOUND self name shape units res_units desc
        None None equals scaler adder ref ref0 linear res_ref distributed
      = Ok {| loc := loc self; _constraints := _constraints self ++ [(name, kw)];
              _vars := _vars self; calls := calls self |}
      /\ (lower kw, upper kw) = (None, None))
  /\
  (exists kw,
      _add_constraint INF_BOUND self name shape units res_units desc
        (Some lo) (Some up) equals scaler adder ref ref0 linear res_ref distributed
      = Ok {| loc := loc self; _constraints := _constraints self ++ [(name, kw)];
              _vars := _vars self; calls := calls self |}
      /\ (lower kw, upper kw) = (Some lo, Some up)).
Proof. split; eexists; (split; [reflexivity|]); done. Qed.

(** The scenario of the specification: [name="gam"], [lower=-1.5],
    [upper=None], everything else at its default. *)
Example gam_lower_only :
  _constraints <$>
    declare INF_BOUND (initialize final)
      ("gam", {| shape := shape default_args; units := None; res_units := None;
                 desc := ""; lower := Some (BFloat (-1.5)%float); upper := None;
                 equals := None; scaler := None; adder := None;
                 ref := ref default_args; ref0 := ref0 default_args;
                 linear := false; res_ref := res_ref default_args;
                 distributed := false |})
  = Ok [("gam", {| shape := [1%Z]; units := None; res_units := None;
                   desc := ""; lower := Some (BFloat (-1.5)%float);
                   upper := Some (BFloat INF_BOUND);
                   equals := None; scaler := None; adder := None;
                   ref := Some 1%float; ref0 := Some 0%float;
                   linear := false; res_ref := 1%float;
                   distributed := false |})].
Proof. reflexivity. Qed.

(** ** Declaration (lines 62-121) *)

(** C3, as amended. Declaring a constraint never fails, also under a name
    that is already registered: two declarations of one name both succeed,
    both are appended to the registry in order, and neither builds any
    model structure. *)
Theorem duplicate_declaration_accepted self name a1 a2 :
  exists self1 self2,
    declare INF_BOUND self (name, a1) = Ok self1 /\
    declare INF_BOUND self1 (name, a2) = Ok self2 /\
    _constraints self2 =
      _constraints self ++
        [registered INF_BOUND (name, a1); registered INF_BOUND (name, a2)] /\
    (_constraints self2).*1 = (_constraints self).*1 ++ [name; name] /\
    _vars self2 = _vars self /\
    calls self2 = calls self.
Proof.
  eexists _, _. rewrite declare_eq. split; [reflexivity|].
  rewrite declare_eq. split; [reflexivity|].
  cbn [loc _constraints _vars calls]. rewrite <- app_assoc.
  repeat split. by rewrite fmap_app.
Qed.

(** ** The first loop of [setup] (lines 24-42) *)

#[local] Instance input_name_of_Inj l : Inj (=) (=) (input_name_of l).
Proof. intros n1 n2. apply input_name_of_inj. Qed.

#[local] Instance output_name_of_Inj l : Inj (=) (=) (output_name_of l).
Proof. intros n1 n2. apply output_name_of_inj. Qed.

Lemma input_calls_log l rs vs :
  input_calls (flat_map (emitted l) rs ++ (partials_call <$> vs)) =
  (fun c => (input_name_of l c.1, variable_kwargs c.2)) <$> rs.
Proof.
  induction rs as [|c rs IH]; simpl; [|by f_equal].
  induction vs as [|v vs IH]; simpl; done.
Qed.

Lemma output_calls_log l rs vs :
  output_calls (flat_map (emitted l) rs ++ (partials_call <$> vs)) =
  (fun c => (output_name_of l c.1, variable_kwargs c.2)) <$> rs.
Proof.
  induction rs as [|c rs IH]; simpl; [|by f_equal].
  induction vs as [|v vs IH]; simpl; done.
Qed.

Lemma constraint_calls_log l rs vs :
  constraint_calls (flat_map (emitted l) rs ++ (partials_call <$> vs)) =
  (fun c => (output_name_of l c.1, constraint_kwargs c.2)) <$> rs.
Proof.
  induction rs as [|c rs IH]; simpl; [|by f_equal].
  induction vs as [|v vs IH]; simpl; done.
Qed.

Lemma constraint_calls_elem n kw cs :
  add_constraint n kw ∈ cs -> (n, kw) ∈ constraint_calls cs.
Proof.
  intros Hin. unfold constraint_calls. apply list_elem_of_omap.
  by exists (add_constraint n kw).
Qed.

(** C4, as amended. A build of [ds] in a component at location [l] issues
    one [add_input] and one [add_output] per declaration, in declaration
    order, named ["{loc}_value_in:{name}"] and ["{loc}_value:{name}"] and
    carrying the declared units, shape and description; when no name is
    declared twice, the input and the output of a name are the only ones so
    named; in general there are as many inputs, and as many outputs, named
    after [n] as there are declarations of [n]. *)
Theorem build_creates_named_pair l ds :
  buildable ds ->
  exists self,
    build INF_BOUND l ds = Ok self /\
    input_calls (calls self) =
      (fun d => (loc_str l +:+ "_value_in:" +:+ d.1,
                 [("units", py_str (units d.2)); ("shape", PTuple (shape d.2));
                  ("desc", PStr (desc d.2))])) <$> ds /\
    output_calls (calls self) =
      (fun d => (loc_str l +:+ "_value:" +:+ d.1,
                 [("units", py_str (units d.2)); ("shape", PTuple (shape d.2));
                  ("desc", PStr (desc d.2))])) <$> ds /\
    (NoDup ds.*1 ->
     forall n a, (n, a) ∈ ds ->
       filter (fun c => c.1 = loc_str l +:+ "_value_in:" +:+ n)
         (input_calls (calls self)) =
         [(loc_str l +:+ "_value_in:" +:+ n,
           [("units", py_str (units a)); ("shape", PTuple (shape a));
            ("desc", PStr (desc a))])] /\
       filter (fun c => c.1 = loc_str l +:+ "_value:" +:+ n)
         (output_calls (calls self)) =
         [(loc_str l +:+ "_value:" +:+ n,
           [("units", py_str (units a)); ("shape", PTuple (shape a));
            ("desc", PStr (desc a))])]) /\
    (forall n,
       length (filter (fun c => c.1 = loc_str l +:+ "_value_in:" +:+ n)
                 (input_calls (calls self))) =
       length (filter (fun d => d.1 = n) ds) /\
       length (filter (fun c => c.1 = loc_str l +:+ "_value:" +:+ n)
                 (output_calls (calls self))) =
       length (filter (fun d => d.1 = n) ds)).
Proof.
  intros Hds. eexists. split; [by apply build_ok|].
  cbn [calls]. rewrite input_calls_log, output_calls_log.
  rewrite <- !(list_fmap_compose (registered INF_BOUND)).
  split; [done|]. split; [done|]. split; [|intros n; split].
  2:{ apply filter_fmap_length. intros d. simpl. split; [|by intros ->].
      apply (input_name_of_inj l). }
  2:{ apply filter_fmap_length. intros d. simpl. split; [|by intros ->].
      apply (output_name_of_inj l). }
  intros Hnd n a Hin.
  split.
  - apply (filter_unique_key _ (input_name_of l n, variable_kwargs a)).
    + apply (NoDup_fmap_2 (input_name_of l)) in Hnd.
      rewrite <- (list_fmap_compose fst) in Hnd.
      rewrite <- (list_fmap_compose _ fst). exact Hnd.
    + apply list_elem_of_fmap. by exists (n, a).
  - apply (filter_unique_key _ (output_name_of l n, variable_kwargs a)).
    + apply (NoDup_fmap_2 (output_name_of l)) in Hnd.
      rewrite <- (list_fmap_compose fst) in Hnd.
      rewrite <- (list_fmap_compose _ fst). exact Hnd.
    + apply list_elem_of_fmap. by exists (n, a).
Qed.

(** C8, as amended. For a declaration that sets [equals] together with
    [lower] and/or [upper], declaring and building raise nothing (the shapes
    being buildable), and the keywords of its [add_constraint] call carry
    [equals] as supplied and the bounds as normalization leaves them: a
    supplied bound as supplied, a missing one as the sentinel. *)
Theorem equals_with_bounds_forwarded l ds :
  buildable ds ->
  exists self,
    build INF_BOUND l ds = Ok self /\
    forall i n a,
      ds !! i = Some (n, a) ->
      is_Some (equals a) ->
      is_Some (lower a) \/ is_Some (upper a) ->
      exists kw,
        constraint_calls (calls self) !! i = Some (output_name_of l n, kw) /\
        dict_get kw "equals" = Some (py_bound (equals a)) /\
        dict_get kw "lower" =
          Some (match lower a with
                | Some _ => py_bound (lower a)
                | None => PFloat (- INF_BOUND)%float
                end) /\
        dict_get kw "upper" =
          Some (match upper a with
                | Some _ => py_bound (upper a)
                | None => PFloat INF_BOUND
                end).
Proof.
  intros Hds. eexists. split; [by apply build_ok|].
  intros i n a Hi _ Hbound. cbn [calls]. rewrite constraint_calls_log.
  rewrite <- (list_fmap_compose (registered INF_BOUND)), list_lookup_fmap, Hi.
  simpl.
  eexists. split; [reflexivity|]. split; [done|].
  destruct (lower a) as [lo|], (upper a) as [up|]; simpl; try done.
  destruct Hbound as [[? [=]]|[? [=]]].
Qed.

(** C9. The keywords of every [add_constraint] call of a build have
    [indices] equal to [None], and there is one such call per declaration:
    no argument of a declaration reaches that keyword. *)
Theorem constraint_indices_None l ds :
  buildable ds ->
  exists self,
    build INF_BOUND l ds = Ok self /\
    length (constraint_calls (calls self)) = length ds /\
    forall n kw, add_constraint n kw ∈ calls self ->
      dict_get kw "indices" = Some PNone.
Proof.
  intros Hds. eexists. split; [by apply build_ok|]. cbn [calls]. split.
  - by rewrite constraint_calls_log, !length_fmap.
  - intros n kw Hin%constraint_calls_elem.
    rewrite constraint_calls_log in Hin.
    apply list_elem_of_fmap in Hin as (c & [= -> ->] & _). done.
Qed.

(** ** The second loop of [setup] (lines 45-55) *)

Lemma partials_calls_emitted l rs o w :
  partials_calls (flat_map (emitted l) rs) o w = [].
Proof. induction rs as [|c rs IH]; simpl; done. Qed.

Lemma partials_calls_other (vs : list (string * var_options)) o w :
  Forall (fun v => output_name v.2 <> o) vs ->
  partials_calls (partials_call <$> vs) o w = [].
Proof.
  induction 1 as [|v vs Hv _ IH]; [done|]. simpl.
  apply String.eqb_neq in Hv. by rewrite Hv.
Qed.

Lemma partials_calls_unique (vs : list (string * var_options)) v :
  NoDup (output_name ∘ snd <$> vs) ->
  v ∈ vs ->
  partials_calls (partials_call <$> vs) (output_name v.2) (input_name v.2) =
  [(replicate (Z.to_nat (np_prod (var_shape v.2))) 1%float,
    seqZ 0 (np_prod (var_shape v.2)), seqZ 0 (np_prod (var_shape v.2)))].
Proof.
  induction vs as [|v' vs IH]; intros Hnd Hin; [by apply elem_of_nil in Hin|].
  simpl in Hnd. apply NoDup_cons in Hnd as [Hv' Hnd].
  apply elem_of_cons in Hin as [->|Hin].
  - simpl. rewrite !String.eqb_refl. simpl. f_equal.
    apply partials_calls_other, Forall_forall. intros u Hu Heq.
    apply Hv', list_elem_of_fmap. exists u. by split.
  - simpl. destruct (String.eqb_spec (output_name v'.2) (output_name v.2)) as [Heq|_].
    + exfalso. apply Hv', list_elem_of_fmap. exists v. by split.
    + simpl. by apply IH.
Qed.

Lemma vars_output_names_NoDup l cs :
  NoDup (output_name ∘ snd <$> items (vars_of l cs ∅)).
Proof.
  apply NoDup_fmap_2_strong; [|apply items_NoDup].
  intros [n1 v1] [n2 v2] H1%elem_of_items H2%elem_of_items Heq.
  simpl in Heq.
  destruct (vars_of_names l cs n1 v1 H1) as [_ Ho1].
  destruct (vars_of_names l cs n2 v2 H2) as [_ Ho2].
  rewrite Ho1, Ho2 in Heq. apply output_name_of_inj in Heq as ->.
  rewrite H1 in H2. by injection H2 as ->.
Qed.

Lemma triplets_identity size :
  triplets (replicate (Z.to_nat size) 1%float) (seqZ 0 size) (seqZ 0 size) =
  (fun i => (i, i, 1%float)) <$> seqZ 0 size.
Proof.
  unfold triplets. rewrite zip_diag.
  rewrite zip_with_replicate_r_eq by by rewrite length_fmap, length_seqZ.
  by rewrite <- (list_fmap_compose (fun x : Z => (x, x))).
Qed.

(** C5, as amended. After a build, every variable of [_vars] (there is one
    for every declared name, with the shape of the last declaration of that
    name) has exactly one [declare_partials] call for its output with
    respect to its input; with [size] the value of [int(np.prod(shape))],
    the product of the dimensions in int64, that call holds exactly [size]
    entries, the entries [(i, i, 1.0)] for [i] from [0] to [size - 1]; and
    [size] is the product of the dimensions whenever that product fits in an
    int64. *)
Theorem partials_are_sparse_identity l ds :
  buildable ds ->
  exists self,
    build INF_BOUND l ds = Ok self /\
    (forall n, n ∈ ds.*1 -> is_Some (_vars self !! n)) /\
    forall n v, _vars self !! n = Some v ->
      let size := np_prod (var_shape v) in
      (exists pre a post,
          ds = pre ++ (n, a) :: post /\ (n ∉ post.*1) /\ var_shape v = shape a) /\
      exists val rows cols,
        partials_calls (calls self) (output_name v) (input_name v) =
          [(val, rows, cols)] /\
        triplets val rows cols = (fun i => (i, i, 1%float)) <$> seqZ 0 size /\
        Z.of_nat (length (triplets val rows cols)) = size /\
        (int64_range (shape_product (var_shape v)) ->
         size = shape_product (var_shape v)).
Proof.
  intros Hds. eexists. split; [by apply build_ok|]. cbn [_vars calls]. split.
  - intros n Hn.
    destruct (last_declaration ds n Hn) as (pre & a & post & -> & Hpost).
    rewrite vars_of_last by done. by eexists.
  - intros n v Hv. split.
    + destruct (vars_of_lookup l ds n v Hv) as (pre & a & post & -> & Hpost & ->).
      by exists pre, a, post.
    + eexists _, _, _. split; [|split; [|split; [|apply np_prod_exact]]].
      * unfold partials_calls. rewrite omap_app.
        fold (partials_calls (flat_map (emitted l) (registered INF_BOUND <$> ds))
                (output_name v) (input_name v)).
        rewrite partials_calls_emitted. simpl.
        apply (partials_calls_unique _ (n, v)).
        -- apply vars_output_names_NoDup.
        -- by apply elem_of_items.
      * apply triplets_identity.
      * rewrite triplets_identity, length_fmap, length_seqZ.
        apply Z2Nat.id.
        assert (Hall := vars_of_buildable l ds Hds).
        rewrite Forall_forall in Hall.
        apply (Hall (n, v)). by apply elem_of_items.
Qed.

(** A build is the second loop run on what the first loop leaves. *)
Lemma build_unfold l ds :
  build INF_BOUND l ds =
  for_each setup_partials
    {| loc := l; _constraints := registered INF_BOUND <$> ds;
       _vars := vars_of l ds ∅;
       calls := flat_map (emitted l) (registered INF_BOUND <$> ds) |}
    (items (vars_of l ds ∅)).
Proof.
  unfold build. rewrite declare_all_eq. cbn [mbind result_bind].
  unfold setup. rewrite setup_constraints_eq. cbn [mbind result_bind].
  cbn [initialize loc _constraints _vars calls app].
  by rewrite vars_of_registered.
Qed.

Lemma setup_partials_loop_vars vs s s' :
  for_each setup_partials s vs = Ok s' -> _vars s' = _vars s.
Proof.
  revert s. induction vs as [|v vs IH]; intros s; simpl.
  - by intros [= ->].
  - destruct (Z.lt_ge_cases (np_prod (var_shape v.2)) 0) as [Hneg|Hpos].
    + by rewrite setup_partials_neg.
    + rewrite setup_partials_ok by done. cbn [mbind result_bind].
      intros Hs'. by rewrite (IH _ Hs').
Qed.

Lemma build_vars l ds self :
  build INF_BOUND l ds = Ok self -> _vars self = vars_of l ds ∅.
Proof.
  rewrite build_unfold. intros Hs. by rewrite (setup_partials_loop_vars _ _ _ Hs).
Qed.


(** A negative dimension, and two positive dimensions whose product
    overflows to a negative size, both make the build raise; two negative
    dimensions do not. *)
Example negative_sizes :
  let shaped (s : list Z) : string * kwargs :=
    ("x", {| shape := s; units := None; res_units := None; desc := "";
             lower := None; upper := None; equals := None;
             scaler := None; adder := None;
             ref := Some 1%float; ref0 := Some 0%float;
             linear := false; res_ref := 1%float; distributed := false |}) in
  build INF_BOUND final [shaped [(-1)%Z]] =
    Raise (ValueError "negative dimensions are not allowed") /\
  build INF_BOUND final [wide_q] =
    Raise (ValueError "negative dimensions are not allowed") /\
  np_prod (shape wide_q.2) = (-9223372036709301616)%Z /\
  (fun cs => partials_calls cs "final_value:x" "final_value_in:x") <$>
    (calls <$> build INF_BOUND final [shaped [(-1)%Z; (-2)%Z]]) =
    Ok [([1%float; 1%float], [0%Z; 1%Z], [0%Z; 1%Z])].
Proof. repeat split; vm_compute; reflexivity. Qed.

(** ** Evaluation (lines 57-60) *)

Lemma compute_loop inputs (vs : list (string * var_options)) :
  NoDup (output_name ∘ snd <$> vs) ->
  Forall (fun v => is_Some (inputs !! input_name v.2)) vs ->
  forall outputs, exists outputs',
    for_each (compute_var inputs) outputs vs = Ok outputs' /\
    (forall v, v ∈ vs -> outputs' !! output_name v.2 = inputs !! input_name v.2) /\
    (forall k, Forall (fun v => output_name v.2 <> k) vs ->
               outputs' !! k = outputs !! k).
Proof.
  intros Hnd Hin. induction Hin as [|[n v] vs [x Hx] _ IH]; intros outputs.
  - exists outputs. split; [done|]. split; [|done].
    intros v Hv. by apply elem_of_nil in Hv.
  - simpl in Hnd. apply NoDup_cons in Hnd as [Hv Hnd]. simpl in Hx.
    destruct (IH Hnd (<[output_name v := x]> outputs)) as (outputs' & Hrun & Hcopy & Hframe).
    exists outputs'. cbn [for_each compute_var]. rewrite Hx. cbn [mbind result_bind].
    split; [done|]. split.
    + intros u [->|Hu]%elem_of_cons; [|by apply Hcopy]. simpl.
      rewrite Hframe, lookup_insert_eq; [done|].
      apply Forall_forall. intros u Hu Heq.
      apply Hv, list_elem_of_fmap. by exists u.
    + intros k [Hk Hks]%Forall_cons. simpl in Hk.
      by rewrite Hframe, lookup_insert_ne.
Qed.

(** C6. After a build, when every variable's input is present in [inputs],
    one call of [compute] returns outputs in which every variable's output is
    the very array of its input (for every declared name, the output
    ["{loc}_value:{name}"] is the input ["{loc}_value_in:{name}"]), and every
    other entry of the outputs is as it was. *)
Theorem compute_copies_inputs l ds self (inputs outputs : gmap string ndarray) :
  build INF_BOUND l ds = Ok self ->
  (forall n v, _vars self !! n = Some v -> is_Some (inputs !! input_name v)) ->
  exists outputs',
    compute self inputs outputs = Ok outputs' /\
    (forall n v, _vars self !! n = Some v ->
       outputs' !! output_name v = inputs !! input_name v) /\
    (forall n, n ∈ ds.*1 ->
       is_Some (inputs !! (loc_str l +:+ "_value_in:" +:+ n)) /\
       outputs' !! (loc_str l +:+ "_value:" +:+ n) =
       inputs !! (loc_str l +:+ "_value_in:" +:+ n)) /\
    (forall k, (forall n v, _vars self !! n = Some v -> output_name v <> k) ->
       outputs' !! k = outputs !! k).
Proof.
  intros Hvars%build_vars Hin. unfold compute. rewrite Hvars in *.
  destruct (compute_loop inputs (items (vars_of l ds ∅))
              (vars_output_names_NoDup l ds)) with (outputs := outputs)
    as (outputs' & Hrun & Hcopy & Hframe).
  { apply Forall_forall. intros [n v] Hv%elem_of_items. by apply (Hin n). }
  exists outputs'. split; [done|]. split; [|split].
  - intros n v Hv. by apply (Hcopy (n, v)), elem_of_items.
  - intros n Hn.
    destruct (last_declaration ds n Hn) as (pre & a & post & -> & Hpost).
    pose proof (vars_of_last l pre n a post ∅ Hpost) as Hv.
    split; [apply (Hin _ _ Hv)|].
    by apply (Hcopy (n, var_of l (n, a))), elem_of_items.
  - intros k Hk. apply Hframe, Forall_forall.
    intros [n v] Hv%elem_of_items. by apply (Hk n).
Qed.

(** ** What the build does not read *)

Lemma setup_partials_loop_frame vs s1 s2 :
  _vars s1 = _vars s2 -> calls s1 = calls s2 ->
  build_result (for_each setup_partials s1 vs) =
  build_result (for_each setup_partials s2 vs).
Proof.
  revert s1 s2. induction vs as [|v vs IH]; intros s1 s2 Hvars Hcalls.
  - simpl. unfold build_result. simpl. by rewrite Hvars, Hcalls.
  - cbn [for_each].
    destruct (Z.lt_ge_cases (np_prod (var_shape v.2)) 0) as [Hneg|Hpos].
    + by rewrite !setup_partials_neg.
    + rewrite !setup_partials_ok by done. cbn [mbind result_bind].
      apply IH; unfold invoke; simpl; congruence.
Qed.

Lemma setup_frame s1 s2 :
  loc s1 = loc s2 -> _vars s1 = _vars s2 -> calls s1 = calls s2 ->
  Forall2 (fun c1 c2 => var_of (loc s1) c1 = var_of (loc s1) c2 /\
                        emitted (loc s1) c1 = emitted (loc s1) c2)
    (_constraints s1) (_constraints s2) ->
  build_result (setup s1) = build_result (setup s2).
Proof.
  intros Hloc Hvars Hcalls Hcs. unfold setup.
  rewrite !setup_constraints_eq. cbn [mbind result_bind _vars].
  assert (vars_of (loc s1) (_constraints s1) (_vars s1) =
          vars_of (loc s2) (_constraints s2) (_vars s2)) as Hv.
  { rewrite <- Hloc, <- Hvars. generalize (_vars s1).
    induction Hcs as [|c1 c2 cs1 cs2 [Hc _] _ IH]; intros m; [done|].
    unfold vars_of in *. cbn [foldl].
    assert (c1.1 = c2.1) as ->.
    { apply (input_name_of_inj (loc s1)). by injection Hc. }
    rewrite Hc. apply IH. }
  assert (flat_map (emitted (loc s1)) (_constraints s1) =
          flat_map (emitted (loc s2)) (_constraints s2)) as He.
  { clear Hv. rewrite <- Hloc.
    induction Hcs as [|c1 c2 cs1 cs2 [_ Hc] _ IH]; [done|].
    cbn [flat_map]. by rewrite Hc, IH. }
  rewrite Hv. apply setup_partials_loop_frame; simpl; congruence.
Qed.

(** C10. Two declarations that differ only in [res_units], [res_ref] and
    [distributed], made on the same component and followed by the same
    further declarations, both store their three values in the registry and
    give the same build: the same exception, or the same [_vars] and the
    same calls to [add_input], [add_output], [add_constraint] and
    [declare_partials]. *)
Theorem res_fields_do_not_reach_build self name shape units desc lower upper
    equals scaler adder ref ref0 linear
    res_units1 res_ref1 distributed1 res_units2 res_ref2 distributed2 more :
  exists self1 self2 kw1 kw2,
    (s ← _add_constraint INF_BOUND self name shape units res_units1 desc
           lower upper equals scaler adder ref ref0 linear res_ref1 distributed1;
     for_each (declare INF_BOUND) s more) = Ok self1 /\
    (s ← _add_constraint INF_BOUND self name shape units res_units2 desc
           lower upper equals scaler adder ref ref0 linear res_ref2 distributed2;
     for_each (declare INF_BOUND) s more) = Ok self2 /\
    _constraints self1 !! length (_constraints self) = Some (name, kw1) /\
    (res_units kw1, res_ref kw1, distributed kw1) =
      (res_units1, res_ref1, distributed1) /\
    _constraints self2 !! length (_constraints self) = Some (name, kw2) /\
    (res_units kw2, res_ref kw2, distributed kw2) =
      (res_units2, res_ref2, distributed2) /\
    build_result (setup self1) = build_result (setup self2).
Proof.
  eexists _, _, _, _. rewrite !_add_constraint_eq. cbn [mbind result_bind].
  rewrite !declare_all_eq. cbn [loc _constraints _vars calls].
  split; [reflexivity|]. split; [reflexivity|].
  cbn [loc _constraints _vars calls]. rewrite <- !app_assoc.
  split; [by rewrite lookup_app_r, Nat.sub_diag|]. split; [done|].
  split; [by rewrite lookup_app_r, Nat.sub_diag|]. split; [done|].
  apply setup_frame; [done..|]. cbn [loc _constraints].
  apply Forall2_app; [|constructor; [done|]];
    apply Forall_Forall2_diag, Forall_forall; done.
Qed.

End Correctness.

(** ** The scenarios, evaluated

    [INF_BOUND] is taken as [1e20] here. *)

Example build_h : build 1e20%float final [climb_h] = Ok built_h.
Proof. vm_compute. reflexivity. Qed.

(** C3 as the specification states it fails: the second declaration of
    ["h"] is accepted, nothing is raised and nothing is built. *)
Lemma duplicate_declaration_not_rejected :
  (self ← declare 1e20%float (initialize final) climb_h;
   declare 1e20%float self climb_h)
  = Ok {| loc := final; _constraints := [climb_h; climb_h]; _vars := ∅;
          calls := [] |}
  /\ (forall e,
        (self ← declare 1e20%float (initialize final) climb_h;
         declare 1e20%float self climb_h) <> Raise e).
Proof. split; [reflexivity|]. intros e He. discriminate He. Qed.

(** C4 as the specification states it fails: with ["h"] declared twice,
    which nothing rejects, the build issues two [add_input] calls named
    ["final_value_in:h"] and two [add_output] calls named
    ["final_value:h"], not exactly one of each. *)
Lemma duplicate_name_creates_two_inputs :
  filter (fun c => c.1 = "final_value_in:h") <$>
    (input_calls <$> (calls <$> build 1e20%float final [climb_h; climb_h])) =
    Ok [("final_value_in:h",
         [("units", PStr "m"); ("shape", PTuple [1%Z]); ("desc", PStr "")]);
        ("final_value_in:h",
         [("units", PStr "m"); ("shape", PTuple [1%Z]); ("desc", PStr "")])]
  /\
  filter (fun c => c.1 = "final_value:h") <$>
    (output_calls <$> (calls <$> build 1e20%float final [climb_h; climb_h])) =
    Ok [("final_value:h",
         [("units", PStr "m"); ("shape", PTuple [1%Z]); ("desc", PStr "")]);
        ("final_value:h",
         [("units", PStr "m"); ("shape", PTuple [1%Z]); ("desc", PStr "")])].
Proof. split; vm_compute; reflexivity. Qed.

(** C5 as the specification states it fails: for the shape
    [(4294967296, 4294967296)] the product of the dimensions is 2^64, yet
    the size computed in int64 is 0 and the one [declare_partials] call of
    the variable has no entry. *)
Lemma wide_shape_gets_empty_block :
  shape_product (shape wide_w.2) = (2 ^ 64)%Z /\
  np_prod (shape wide_w.2) = 0%Z /\
  (fun cs => partials_calls cs "final_value:w" "final_value_in:w") <$>
    (calls <$> build 1e20%float final [wide_w]) =
  Ok [([], [], [])].
Proof. repeat split; vm_compute; reflexivity. Qed.


(** C8 as the specification states it fails: with [equals=0.0],
    [lower=-1.5] and no [upper], the triple forwarded to [add_constraint]
    is not the supplied one: it has the sentinel for [upper], where [None]
    was supplied. *)
Lemma equals_with_one_bound_not_forwarded_as_supplied :
  exists kw,
    constraint_calls <$> (calls <$> build 1e20%float final [climb_gam_equals]) =
      Ok [("final_value:gam", kw)] /\
    (dict_get kw "lower", dict_get kw "upper", dict_get kw "equals") <>
      (Some (py_bound (lower climb_gam_equals.2)),
       Some (py_bound (upper climb_gam_equals.2)),
       Some (py_bound (equals climb_gam_equals.2))) /\
    dict_get kw "upper" = Some (PFloat 1e20%float) /\
    py_bound (upper climb_gam_equals.2) = PNone.
Proof.
  exists [("lower", PFloat (-1.5)%float); ("upper", PFloat 1e20%float);
          ("equals", PFloat 0%float); ("ref", PFloat 1%float);
          ("ref0", PFloat 0%float); ("adder", PNone); ("scaler", PNone);
          ("indices", PNone); ("linear", PBool false)].
  split; [vm_compute; reflexivity|]. split; [|by split].
  intros [=].
Qed.

(** ** The theorems with a premise, at the scenarios *)

Lemma build_creates_named_pair_climb :
  buildable [climb_h; climb_gam] /\
  exists self,
    build 1e20%float final [climb_h; climb_gam] = Ok self /\
    input_calls (calls self) =
      (fun d => (loc_str final +:+ "_value_in:" +:+ d.1,
                 [("units", py_str (units d.2)); ("shape", PTuple (shape d.2));
                  ("desc", PStr (desc d.2))])) <$> [climb_h; climb_gam] /\
    output_calls (calls self) =
      (fun d => (loc_str final +:+ "_value:" +:+ d.1,
                 [("units", py_str (units d.2)); ("shape", PTuple (shape d.2));
                  ("desc", PStr (desc d.2))])) <$> [climb_h; climb_gam] /\
    (NoDup [climb_h; climb_gam].*1 ->
     forall n a, (n, a) ∈ [climb_h; climb_gam] ->
       filter (fun c => c.1 = loc_str final +:+ "_value_in:" +:+ n)
         (input_calls (calls self)) =
         [(loc_str final +:+ "_value_in:" +:+ n,
           [("units", py_str (units a)); ("shape", PTuple (shape a));
            ("desc", PStr (desc a))])] /\
       filter (fun c => c.1 = loc_str final +:+ "_value:" +:+ n)
         (output_calls (calls self)) =
         [(loc_str final +:+ "_value:" +:+ n,
           [("units", py_str (units a)); ("shape", PTuple (shape a));
            ("desc", PStr (desc a))])]) /\
    (forall n,
       length (filter (fun c => c.1 = loc_str final +:+ "_value_in:" +:+ n)
                 (input_calls (calls self))) =
       length (filter (fun d => d.1 = n) [climb_h; climb_gam]) /\
       length (filter (fun c => c.1 = loc_str final +:+ "_value:" +:+ n)
                 (output_calls (calls self))) =
       length (filter (fun d => d.1 = n) [climb_h; climb_gam])).
Proof.
  split; [repeat constructor; done|].
  apply (build_creates_named_pair 1e20%float final [climb_h; climb_gam]).
  repeat constructor; done.
Defined.

Lemma partials_are_sparse_identity_climb :
  buildable [climb_h; climb_gam] /\
  exists self,
    build 1e20%float final [climb_h; climb_gam] = Ok self /\
    (forall n, n ∈ [climb_h; climb_gam].*1 -> is_Some (_vars self !! n)) /\
    forall n v, _vars self !! n = Some v ->
      let size := np_prod (var_shape v) in
      (exists pre a post,
          [climb_h; climb_gam] = pre ++ (n, a) :: post /\ (n ∉ post.*1) /\
          var_shape v = shape a) /\
      exists val rows cols,
        partials_calls (calls self) (output_name v) (input_name v) =
          [(val, rows, cols)] /\
        triplets val rows cols = (fun i => (i, i, 1%float)) <$> seqZ 0 size /\
        Z.of_nat (length (triplets val rows cols)) = size /\
        (int64_range (shape_product (var_shape v)) ->
         size = shape_product (var_shape v)).
Proof.
  split; [repeat constructor; done|].
  apply (partials_are_sparse_identity 1e20%float final [climb_h; climb_gam]).
  repeat constructor; done.
Defined.

(** The block of [gam], of shape [(2, 2)]: four entries on the diagonal. *)
Example partials_gam :
  (fun cs => partials_calls cs "final_value:gam" "final_value_in:gam") <$>
    (calls <$> build 1e20%float final [climb_h; climb_gam]) =
  Ok [([1%float; 1%float; 1%float; 1%float],
       [0%Z; 1%Z; 2%Z; 3%Z], [0%Z; 1%Z; 2%Z; 3%Z])].
Proof. vm_compute. reflexivity. Qed.

Lemma inputs_h_present :
  forall n v, _vars built_h !! n = Some v -> is_Some (inputs_h !! input_name v).
Proof.
  intros n v Hv. cbn [built_h _vars] in Hv.
  apply odict_lookup_singleton_Some in Hv as [_ <-]. by eexists.
Qed.

Lemma compute_copies_inputs_h :
  build 1e20%float final [climb_h] = Ok built_h /\
  (forall n v, _vars built_h !! n = Some v ->
               is_Some (inputs_h !! input_name v)) /\
  exists outputs',
    compute built_h inputs_h ∅ = Ok outputs' /\
    (forall n v, _vars built_h !! n = Some v ->
       outputs' !! output_name v = inputs_h !! input_name v) /\
    (forall n, n ∈ [climb_h].*1 ->
       is_Some (inputs_h !! (loc_str final +:+ "_value_in:" +:+ n)) /\
       outputs' !! (loc_str final +:+ "_value:" +:+ n) =
       inputs_h !! (loc_str final +:+ "_value_in:" +:+ n)) /\
    (forall k, (forall n v, _vars built_h !! n = Some v -> output_name v <> k) ->
       outputs' !! k = (∅ : gmap string ndarray) !! k).
Proof.
  split; [vm_compute; reflexivity|]. split; [exact inputs_h_present|].
  apply (compute_copies_inputs 1e20%float final [climb_h] built_h inputs_h ∅).
  - vm_compute. reflexivity.
  - exact inputs_h_present.
Defined.

(** The end-to-end scenario: the input [[19500.0]] comes out as the output. *)
Example compute_h :
  compute built_h inputs_h ∅ =
  Ok {[ "final_value:h" := {| nd_shape := [1%Z]; nd_data := [19500%float] |} ]}.
Proof. vm_compute. reflexivity. Qed.

Lemma equals_with_bounds_forwarded_climb :
  buildable [climb_h; climb_gam_equals] /\
  exists self,
    build 1e20%float final [climb_h; climb_gam_equals] = Ok self /\
    forall i n a,
      [climb_h; climb_gam_equals] !! i = Some (n, a) ->
      is_Some (equals a) ->
      is_Some (lower a) \/ is_Some (upper a) ->
      exists kw,
        constraint_calls (calls self) !! i = Some (output_name_of final n, kw) /\
        dict_get kw "equals" = Some (py_bound (equals a)) /\
        dict_get kw "lower" =
          Some (match lower a with
                | Some _ => py_bound (lower a)
                | None => PFloat (- 1e20)%float
                end) /\
        dict_get kw "upper" =
          Some (match upper a with
                | Some _ => py_bound (upper a)
                | None => PFloat 1e20%float
                end).
Proof.
  split; [repeat constructor; done|].
  apply (equals_with_bounds_forwarded 1e20%float final
           [climb_h; climb_gam_equals]).
  repeat constructor; done.
Defined.

Lemma constraint_indices_None_climb :
  buildable [climb_h; climb_gam] /\
  exists self,
    build 1e20%float final [climb_h; climb_gam] = Ok self /\
    length (constraint_calls (calls self)) = length [climb_h; climb_gam] /\
    forall n kw, add_constraint n kw ∈ calls self ->
      dict_get kw "indices" = Some PNone.
Proof.
  split; [repeat constructor; done|].
  apply (constraint_indices_None 1e20%float final [climb_h; climb_gam]).
  repeat constructor; done.
Defined.

(** * Further properties of the component *)

(** ** Naming (lines 25-26) *)

(** X1. The two name formats are jointly injective in the location and the
    declared name, and no input name is ever an output name, whatever the
    locations and the declared names. *)
Theorem variable_names_injective l1 l2 n1 n2 :
  (input_name_of l1 n1 = input_name_of l2 n2 <-> l1 = l2 /\ n1 = n2) /\
  (output_name_of l1 n1 = output_name_of l2 n2 <-> l1 = l2 /\ n1 = n2) /\
  input_name_of l1 n1 <> output_name_of l2 n2.
Proof.
  unfold input_name_of, output_name_of.
  destruct l1, l2; simpl; (split; [|split]);
    try (split; [intros [=]; by subst | by intros [[=] ->]]);
    by intros [=].
Qed.

(** ** Evaluation: errors and what is read (lines 57-60) *)

Lemma compute_loop_raises inputs (vs : list (string * var_options)) :
  Exists (fun v => inputs !! input_name v.2 = None) vs ->
  forall outputs, exists v,
    v ∈ vs /\ inputs !! input_name v.2 = None /\
    for_each (compute_var inputs) outputs vs = Raise (KeyError (input_name v.2)).
Proof.
  induction vs as [|[n v] vs IH]; intros Hex outputs.
  - by apply Exists_nil in Hex.
  - cbn [for_each compute_var].
    destruct (inputs !! input_name v) as [x|] eqn:Hx.
    + apply Exists_cons in Hex as [Hv|Hvs]; [simpl in Hv; congruence|].
      destruct (IH Hvs (<[output_name v := x]> outputs)) as (u & Hu & Hnone & Hrun).
      exists u. split; [by right|]. by split.
    + exists (n, v). split; [left|]. by split.
Qed.

(** X2. When the input of some variable of [_vars] is absent from [inputs],
    [compute] raises [KeyError], on the input name of a variable whose input
    is absent, and returns no outputs. *)
Theorem compute_missing_input_raises self (inputs outputs : gmap string ndarray)
    n v :
  _vars self !! n = Some v ->
  inputs !! input_name v = None ->
  exists k,
    compute self inputs outputs = Raise (KeyError k) /\
    inputs !! k = None /\
    exists n' v', _vars self !! n' = Some v' /\ input_name v' = k.
Proof.
  intros Hv Hnone. unfold compute.
  destruct (compute_loop_raises inputs (items (_vars self))) with outputs
    as ([n' v'] & Hin & Hnone' & Hrun).
  { apply Exists_exists. exists (n, v). split; [by apply elem_of_items|done]. }
  exists (input_name v'). split; [done|]. split; [done|].
  exists n', v'. split; [by apply elem_of_items|done].
Qed.

(** X3. [compute] reads [inputs] only at the input names of [_vars]: two
    input vectors that agree there give the same result, outputs or
    exception. *)
Theorem compute_reads_only_variable_inputs self
    (inputs1 inputs2 outputs : gmap string ndarray) :
  (forall n v, _vars self !! n = Some v ->
               inputs1 !! input_name v = inputs2 !! input_name v) ->
  compute self inputs1 outputs = compute self inputs2 outputs.
Proof.
  intros Hagree. unfold compute.
  assert (Forall (fun v : string * var_options =>
                    inputs1 !! input_name v.2 = inputs2 !! input_name v.2)
            (items (_vars self))) as Hall.
  { apply Forall_forall. intros [n v] Hv%elem_of_items. by apply (Hagree n). }
  revert outputs. induction Hall as [|[n v] vs Hv _ IH]; intros outputs; [done|].
  cbn [for_each compute_var]. simpl in Hv. rewrite Hv.
  destruct (inputs2 !! input_name v); [apply IH|done].
Qed.

Section Further.

Variable INF_BOUND : float.

(** A build that returns has found every size non-negative. *)
Lemma build_Ok_sizes l ds self :
  build INF_BOUND l ds = Ok self ->
  Forall (fun v : string * var_options => (0 <= np_prod (var_shape v.2))%Z)
    (items (vars_of l ds ∅)).
Proof.
  intros Hb.
  destruct (decide (Forall
    (fun v : string * var_options => (0 <= np_prod (var_shape v.2))%Z)
    (items (vars_of l ds ∅)))) as [Hall|Hnall]; [done|].
  apply not_Forall_Exists in Hnall; [|apply _].
  rewrite build_unfold, setup_partials_loop_raise in Hb; [done|].
  eapply Exists_impl; [exact Hnall|]. simpl. lia.
Qed.

Lemma build_Ok_eq l ds self :
  build INF_BOUND l ds = Ok self ->
  self = {| loc := l;
            _constraints := registered INF_BOUND <$> ds;
            _vars := vars_of l ds ∅;
            calls := flat_map (emitted l) (registered INF_BOUND <$> ds) ++
                     (partials_call <$> items (vars_of l ds ∅)) |}.
Proof.
  intros Hb. pose proof (build_Ok_sizes l ds self Hb) as Hall.
  rewrite build_unfold, setup_partials_loop_ok in Hb by done.
  by injection Hb as <-.
Qed.

(** ** Declaration and evaluation together *)

(** X4. Declarations never change what [compute] does, and on a component
    that has not been built ([_vars] empty) [compute] returns the outputs
    untouched, whatever has been declared and whatever the inputs. *)
Theorem compute_ignores_declarations self ds :
  exists self',
    for_each (declare INF_BOUND) self ds = Ok self' /\
    (forall inputs outputs,
        compute self' inputs outputs = compute self inputs outputs) /\
    (_vars self = ∅ ->
     forall inputs outputs, compute self' inputs outputs = Ok outputs).
Proof.
  eexists. split; [apply declare_all_eq|]. unfold compute. cbn [_vars].
  split; [done|]. intros -> inputs outputs. by rewrite items_empty.
Qed.

(** X5. After a build, [compute] is idempotent: running it again on the
    outputs it returned, with the same inputs, returns those outputs. *)
Theorem compute_idempotent l ds self (inputs outputs outputs1 : gmap string ndarray) :
  build INF_BOUND l ds = Ok self ->
  compute self inputs outputs = Ok outputs1 ->
  compute self inputs outputs1 = Ok outputs1.
Proof.
  intros Hvars%build_vars Hrun. unfold compute in *. rewrite Hvars in *.
  set (vs := items (vars_of l ds ∅)) in *.
  assert (Forall (fun v : string * var_options =>
                    is_Some (inputs !! input_name v.2)) vs) as Hin.
  { destruct (decide (Forall (fun v : string * var_options =>
                                is_Some (inputs !! input_name v.2)) vs))
      as [H|H]; [done|].
    apply not_Forall_Exists in H; [|apply _].
    destruct (compute_loop_raises inputs vs) with outputs as (v & _ & _ & Hr).
    - eapply Exists_impl; [exact H|]. simpl. intros v Hv.
      by apply eq_None_not_Some.
    - congruence. }
  pose proof (vars_output_names_NoDup l ds) as Hnd. fold vs in Hnd.
  destruct (compute_loop inputs vs Hnd Hin outputs) as (o1 & Hr1 & Hc1 & _).
  destruct (compute_loop inputs vs Hnd Hin outputs1) as (o2 & Hr2 & Hc2 & Hf2).
  assert (o1 = outputs1) as -> by congruence.
  rewrite Hr2. f_equal. apply map_eq. intros k.
  destruct (decide (Forall (fun v : string * var_options => output_name v.2 <> k) vs))
    as [Hk|Hk]; [by apply Hf2|].
  apply not_Forall_Exists in Hk; [|apply _].
  apply Exists_exists in Hk as (v & Hv & Hvk). simpl in Hvk.
  apply dec_stable in Hvk as <-. by rewrite Hc1, Hc2.
Qed.

(** ** The registry that declarations build (lines 115-121) *)

(** X6. Whatever is declared on a new component, no registry entry has
    exactly one of [lower], [upper]: the two are both absent or both
    present. *)
Theorem registry_bounds_paired l ds :
  exists self,
    for_each (declare INF_BOUND) (initialize l) ds = Ok self /\
    Forall (fun c => is_Some (lower c.2) <-> is_Some (upper c.2))
      (_constraints self).
Proof.
  eexists. split; [apply declare_all_eq|]. cbn [initialize _constraints app].
  apply Forall_fmap, Forall_forall. intros [n a] _. simpl.
  destruct (lower a) as [lo|], (upper a) as [up|]; simpl; split; intros H;
    first [ by destruct H as [? [=]] | by eapply mk_is_Some ].
Qed.

(** X7. Bound normalization is idempotent: declaring again with the bounds
    that a declaration stored stores those same bounds. *)
Theorem stored_bounds_are_a_fixed_point self name shape units res_units desc
    (lo up : option bound) equals scaler adder ref ref0 linear res_ref
    distributed :
  exists kw,
    _add_constraint INF_BOUND self name shape units res_units desc lo up
      equals scaler adder ref ref0 linear res_ref distributed
    = Ok {| loc := loc self; _constraints := _constraints self ++ [(name, kw)];
            _vars := _vars self; calls := calls self |} /\
    _add_constraint INF_BOUND self name shape units res_units desc
      (lower kw) (upper kw)
      equals scaler adder ref ref0 linear res_ref distributed
    = Ok {| loc := loc self; _constraints := _constraints self ++ [(name, kw)];
            _vars := _vars self; calls := calls self |}.
Proof. eexists. split; [reflexivity|]. by destruct lo, up. Qed.

(** X8. A series of declarations appends one registry entry per declaration,
    in order and under the declared name; each entry holds every argument
    other than the bounds as supplied, and holds a supplied bound as
    supplied. Location, [_vars] and the call log are left as they were. *)
Theorem declarations_are_stored_in_order self ds :
  exists self',
    for_each (declare INF_BOUND) self ds = Ok self' /\
    loc self' = loc self /\ _vars self' = _vars self /\ calls self' = calls self /\
    take (length (_constraints self)) (_constraints self') = _constraints self /\
    (drop (length (_constraints self)) (_constraints self')).*1 = ds.*1 /\
    forall i d, ds !! i = Some d ->
      exists kw,
        _constraints self' !! (length (_constraints self) + i) = Some (d.1, kw) /\
        (shape kw, units kw, res_units kw, desc kw, equals kw, scaler kw) =
          (shape d.2, units d.2, res_units d.2, desc d.2, equals d.2, scaler d.2) /\
        (adder kw, ref kw, ref0 kw, linear kw, res_ref kw, distributed kw) =
          (adder d.2, ref d.2, ref0 d.2, linear d.2, res_ref d.2, distributed d.2) /\
        (is_Some (lower d.2) -> lower kw = lower d.2) /\
        (is_Some (upper d.2) -> upper kw = upper d.2).
Proof.
  eexists. split; [apply declare_all_eq|]. cbn [loc _constraints _vars calls].
  repeat (split; [done|]).
  split; [by rewrite take_app_length|]. rewrite drop_app_length.
  split.
  - rewrite <- (list_fmap_compose (registered INF_BOUND)).
    by apply list_fmap_ext.
  - intros i d Hd. eexists.
    rewrite lookup_app_r by lia.
    replace (length (_constraints self) + i - length (_constraints self)) with i
      by lia.
    rewrite list_lookup_fmap, Hd. split; [reflexivity|]. simpl.
    split; [done|]. split; [done|].
    split; intros [x Hx]; rewrite Hx;
      destruct (lower d.2), (upper d.2); simpl; congruence.
Qed.

(** ** The build as a whole (lines 20-55) *)

Lemma py_bound_None (o : option bound) : py_bound o = PNone <-> o = None.
Proof. destruct o as [[x|a]|]; simpl; split; congruence. Qed.

(** X9. In every [add_constraint] call of a build, [lower] and [upper] are
    both [None] or both a value: the host never receives a bound on one side
    only. *)
Theorem forwarded_bounds_paired l ds :
  buildable ds ->
  exists self,
    build INF_BOUND l ds = Ok self /\
    forall n kw, add_constraint n kw ∈ calls self ->
      exists lo up,
        dict_get kw "lower" = Some lo /\ dict_get kw "upper" = Some up /\
        (lo = PNone <-> up = PNone).
Proof.
  intros Hds. eexists. split; [by apply build_ok|]. cbn [calls].
  intros n kw Hin%constraint_calls_elem.
  rewrite constraint_calls_log in Hin.
  apply list_elem_of_fmap in Hin as (c & [= -> ->] & Hc).
  apply list_elem_of_fmap in Hc as ([m a] & -> & _).
  eexists _, _. split; [reflexivity|]. split; [reflexivity|].
  rewrite !py_bound_None. simpl.
  destruct (lower a), (upper a); simpl; split; congruence.
Qed.

Lemma vars_of_dom l cs :
  dom (vars_of l cs ∅) = (list_to_set cs.*1 : gset string).
Proof.
  induction cs as [|c cs IH] using rev_ind.
  - apply odict_dom_empty.
  - rewrite vars_of_snoc, odict_dom_insert, IH, fmap_app, list_to_set_app_L.
    simpl. rewrite (right_id_L ∅ (∪)). apply (comm_L (∪)).
Qed.

Lemma emitted_length l rs : length (flat_map (emitted l) rs) = 3 * length rs.
Proof. induction rs as [|c rs IH]; simpl; lia. Qed.

(** X10. A build keeps one variable per declared name (a name declared
    again replaces its variable), while it issues three calls per
    declaration and one [declare_partials] per variable; with no name
    declared twice there are as many variables as declarations. *)
Theorem build_one_variable_per_name l ds :
  buildable ds ->
  exists self,
    build INF_BOUND l ds = Ok self /\
    dom (_vars self) = (list_to_set ds.*1 : gset string) /\
    length (calls self) = 3 * length ds + size (_vars self) /\
    (NoDup ds.*1 -> size (_vars self) = length ds).
Proof.
  intros Hds. eexists. split; [by apply build_ok|]. cbn [_vars calls].
  split; [apply vars_of_dom|]. split.
  - by rewrite length_app, emitted_length, !length_fmap, length_items.
  - intros Hnd. rewrite <- odict_size_dom, vars_of_dom, size_list_to_set by done.
    apply length_fmap.
Qed.

Lemma emitted_elem l rs c x :
  c ∈ rs -> x ∈ emitted l c -> x ∈ flat_map (emitted l) rs.
Proof.
  intros Hc Hx. apply list_elem_of_In, in_flat_map.
  exists c. by rewrite <- !list_elem_of_In.
Qed.

Lemma emitted_no_partials l rs o w val rows cols :
  declare_partials o w val rows cols ∉ flat_map (emitted l) rs.
Proof.
  intros Hin%list_elem_of_In%in_flat_map. destruct Hin as (c & _ & Hx).
  apply list_elem_of_In in Hx. unfold emitted in Hx.
  rewrite !elem_of_cons, elem_of_nil in Hx.
  by destruct Hx as [[=]|[[=]|[[=]|[]]]].
Qed.

(** X11. In the call log of a build, every [declare_partials] call comes
    after an [add_output] of its output and an [add_input] of its input. *)
Theorem partials_declared_after_variables l ds :
  buildable ds ->
  exists self,
    build INF_BOUND l ds = Ok self /\
    forall i o w val rows cols,
      calls self !! i = Some (declare_partials o w val rows cols) ->
      exists j k kwo kwi,
        j < i /\ k < i /\
        calls self !! j = Some (add_output o kwo) /\
        calls self !! k = Some (add_input w kwi).
Proof.
  intros Hds. eexists. split; [by apply build_ok|]. cbn [calls].
  intros i o w val rows cols Hi.
  set (E := flat_map (emitted l) (registered INF_BOUND <$> ds)) in *.
  apply lookup_app_Some in Hi as [Hi|[Hlen Hi]].
  { exfalso. apply (emitted_no_partials l (registered INF_BOUND <$> ds)
                      o w val rows cols).
    apply list_elem_of_lookup. by exists i. }
  apply list_lookup_fmap_Some in Hi as ([n v] & Heq & Hv).
  apply list_elem_of_lookup_2, elem_of_items in Hv.
  destruct (vars_of_lookup l ds n v Hv) as (pre & a & post & Hsplit & _ & ->).
  injection Heq as -> -> _ _ _. simpl.
  assert (registered INF_BOUND (n, a) ∈ registered INF_BOUND <$> ds) as Hreg.
  { apply list_elem_of_fmap_2. rewrite Hsplit. apply elem_of_app. right. left. }
  assert (add_output (output_name_of l n)
            (variable_kwargs (registered INF_BOUND (n, a)).2) ∈ E) as Ho.
  { eapply emitted_elem; [exact Hreg|].
    apply list_elem_of_further, list_elem_of_here. }
  assert (add_input (input_name_of l n)
            (variable_kwargs (registered INF_BOUND (n, a)).2) ∈ E) as Hin.
  { eapply emitted_elem; [exact Hreg|]. apply list_elem_of_here. }
  apply list_elem_of_lookup_1 in Ho as [j Hj].
  apply list_elem_of_lookup_1 in Hin as [k Hk].
  pose proof (lookup_lt_Some _ _ _ Hj). pose proof (lookup_lt_Some _ _ _ Hk).
  eexists j, k, _, _. split; [lia|]. split; [lia|].
  rewrite !lookup_app_l by done. by split.
Qed.

Lemma vars_of_is_Some l cs (m : odict var_options) n :
  is_Some (m !! n) \/ n ∈ cs.*1 -> is_Some (vars_of l cs m !! n).
Proof.
  intros Hn. destruct (decide (n ∈ cs.*1)) as [Hin|Hout].
  - destruct (last_declaration cs n Hin) as (pre & kw & post & -> & Hpost).
    rewrite vars_of_last by done. by eexists.
  - rewrite vars_of_fresh by done. by destruct Hn.
Qed.

(** Assigning to names that are all in the dictionary keeps its keys, and
    their order. *)
Lemma vars_of_keys_in l cs (m : odict var_options) :
  (forall n, n ∈ cs.*1 -> is_Some (m !! n)) ->
  (items (vars_of l cs m)).*1 = (items m).*1.
Proof.
  induction cs as [|c cs IH] using rev_ind; intros Hin; [done|].
  rewrite vars_of_snoc, odict_keys_insert_in.
  - apply IH. intros n Hn. apply Hin. rewrite fmap_app. apply elem_of_app. by left.
  - apply vars_of_is_Some. left. apply Hin.
    rewrite fmap_app. apply elem_of_app. right. simpl. left.
Qed.

Lemma vars_of_idem l cs m : vars_of l cs (vars_of l cs m) = vars_of l cs m.
Proof.
  apply odict_ext.
  - apply vars_of_keys_in. intros n Hn. apply vars_of_is_Some. by right.
  - intros n. destruct (decide (n ∈ cs.*1)) as [Hin|Hout].
    + destruct (last_declaration cs n Hin) as (pre & kw & post & -> & Hpost).
      by rewrite !vars_of_last.
    + by rewrite !vars_of_fresh.
Qed.

(** X12. [setup] is not idempotent: run a second time on a built component
    it succeeds, leaves the registry and [_vars] as they are, and issues
    every call of the first run once more, in the same order. *)
Theorem second_setup_repeats_calls l ds self :
  build INF_BOUND l ds = Ok self ->
  exists self2,
    setup self = Ok self2 /\
    _constraints self2 = _constraints self /\
    _vars self2 = _vars self /\
    calls self2 = calls self ++ calls self.
Proof.
  intros Hb. pose proof (build_Ok_sizes l ds self Hb) as Hall.
  apply build_Ok_eq in Hb as ->. unfold setup.
  rewrite setup_constraints_eq. cbn [mbind result_bind loc _constraints _vars calls].
  rewrite vars_of_registered, vars_of_idem.
  rewrite setup_partials_loop_ok by done. cbn [loc _constraints _vars calls].
  eexists. split; [reflexivity|]. cbn [_constraints _vars calls].
  by rewrite <- !app_assoc.
Qed.

Lemma setup_partials_loop_Ok vs s s' :
  for_each setup_partials s vs = Ok s' ->
  s' = {| loc := loc s; _constraints := _constraints s; _vars := _vars s;
          calls := calls s ++ (partials_call <$> vs) |}.
Proof.
  intros Hrun.
  destruct (decide (Forall
    (fun v : string * var_options => (0 <= np_prod (var_shape v.2))%Z) vs))
    as [Hall|Hnall].
  - rewrite setup_partials_loop_ok in Hrun by done. by injection Hrun as <-.
  - apply not_Forall_Exists in Hnall; [|apply _].
    rewrite setup_partials_loop_raise in Hrun; [done|].
    eapply Exists_impl; [exact Hnall|]. simpl. lia.
Qed.

(** X13. A [setup] that returns, on any component, keeps the location and
    the registry, only appends to the call log, keeps every variable that
    was already in [_vars] under a name (replacing the ones whose name is in
    the registry), and leaves the variables of other names as they were. *)
Theorem setup_keeps_what_it_finds self self' :
  setup self = Ok self' ->
  loc self' = loc self /\
  _constraints self' = _constraints self /\
  calls self `prefix_of` calls self' /\
  (forall n, is_Some (_vars self !! n) -> is_Some (_vars self' !! n)) /\
  (forall n, n ∉ (_constraints self).*1 -> _vars self' !! n = _vars self !! n).
Proof.
  unfold setup. rewrite setup_constraints_eq. cbn [mbind result_bind].
  intros ->%setup_partials_loop_Ok. cbn [loc _constraints _vars calls].
  split; [done|]. split; [done|]. split; [|split].
  - rewrite <- app_assoc. by apply prefix_app_r.
  - intros n Hn. destruct (decide (n ∈ (_constraints self).*1)) as [Hin|Hout].
    + destruct (last_declaration _ n Hin) as (pre & kw & post & -> & Hpost).
      rewrite vars_of_last by done. by eexists.
    + by rewrite vars_of_fresh.
  - intros n Hn. by apply vars_of_fresh.
Qed.

Lemma vars_of_NoDup_lookup l cs n v :
  NoDup cs.*1 ->
  vars_of l cs ∅ !! n = Some v <-> exists a, (n, a) ∈ cs /\ v = var_of l (n, a).
Proof.
  intros Hnd. split.
  - intros (pre & a & post & -> & _ & ->)%vars_of_lookup.
    exists a. split; [|done]. apply elem_of_app. right. left.
  - intros (a & Hin & ->).
    apply list_elem_of_split in Hin as (pre & post & ->).
    apply vars_of_last.
    rewrite fmap_app, fmap_cons in Hnd.
    apply NoDup_app in Hnd as (_ & _ & Hnd). by apply NoDup_cons in Hnd as [? _].
Qed.

(** X14. With no name declared twice, the order of the declarations does
    not matter to a successful evaluation: a permutation of the declarations
    builds too, with the same variable under every name, and when the input
    of every variable is present [compute] returns the same outputs on both
    components. *)
Theorem declaration_order_irrelevant_to_compute l ds ds' self :
  NoDup ds.*1 ->
  ds ≡ₚ ds' ->
  build INF_BOUND l ds = Ok self ->
  exists self',
    build INF_BOUND l ds' = Ok self' /\
    (forall n, _vars self' !! n = _vars self !! n) /\
    forall (inputs outputs : gmap string ndarray),
      (forall n v, _vars self !! n = Some v ->
                   is_Some (inputs !! input_name v)) ->
      exists outputs',
        compute self inputs outputs = Ok outputs' /\
        compute self' inputs outputs = Ok outputs'.
Proof.
  intros Hnd Hperm Hb.
  assert (NoDup ds'.*1) as Hnd' by by rewrite <- Hperm.
  assert (forall n, vars_of l ds' ∅ !! n = vars_of l ds ∅ !! n) as Hvars.
  { intros n. apply option_eq. intros v.
    rewrite !vars_of_NoDup_lookup by done.
    by setoid_rewrite Hperm. }
  assert (forall x, x ∈ items (vars_of l ds' ∅) <-> x ∈ items (vars_of l ds ∅))
    as Hitems.
  { intros [n v]. by rewrite !elem_of_items, Hvars. }
  pose proof (build_Ok_sizes l ds self Hb) as Hall.
  apply build_Ok_eq in Hb as ->. cbn [_vars].
  eexists. split.
  { rewrite build_unfold. apply setup_partials_loop_ok.
    apply Forall_forall. intros x Hx%Hitems.
    rewrite Forall_forall in Hall. by apply Hall. }
  cbn [_vars]. split; [done|]. intros inputs outputs Hin. unfold compute.
  cbn [_vars].
  destruct (compute_loop inputs (items (vars_of l ds ∅))
              (vars_output_names_NoDup l ds)) with (outputs := outputs)
    as (o1 & Hr1 & Hc1 & Hf1).
  { apply Forall_forall. intros [n v] Hv%elem_of_items. by apply (Hin n). }
  destruct (compute_loop inputs (items (vars_of l ds' ∅))
              (vars_output_names_NoDup l ds')) with (outputs := outputs)
    as (o2 & Hr2 & Hc2 & Hf2).
  { apply Forall_forall. intros [n v] Hv%Hitems%elem_of_items. by apply (Hin n). }
  exists o1. split; [done|]. rewrite Hr2. f_equal. apply map_eq. intros k.
  destruct (decide (Forall (fun v : string * var_options => output_name v.2 <> k)
                      (items (vars_of l ds ∅)))) as [Hk|Hk].
  - rewrite Hf1 by done. apply Hf2, Forall_forall. intros x Hx%Hitems.
    rewrite Forall_forall in Hk. by apply Hk.
  - apply not_Forall_Exists in Hk; [|apply _].
    apply Exists_exists in Hk as (v & Hv & Hvk). simpl in Hvk.
    apply dec_stable in Hvk as <-. rewrite Hc1 by done.
    apply Hc2. by apply Hitems.
Qed.

(** X15. Every [declare_partials] call of a build is well formed and
    diagonal: it is for the output and the input of a variable of [_vars],
    [rows] and [cols] are the same list without repetition, of the length of
    [val], every index lies below that length, and every value is [1.0]. *)
Theorem partials_calls_well_formed l ds :
  buildable ds ->
  exists self,
    build INF_BOUND l ds = Ok self /\
    forall o w val rows cols,
      declare_partials o w val rows cols ∈ calls self ->
      (exists n v, _vars self !! n = Some v /\ o = output_name v /\
                   w = input_name v) /\
      rows = cols /\ length val = length rows /\ NoDup rows /\
      (forall r, r ∈ rows -> (0 <= r < Z.of_nat (length rows))%Z) /\
      (forall x, x ∈ val -> x = 1%float).
Proof.
  intros Hds. eexists. split; [by apply build_ok|]. cbn [_vars calls].
  intros o w val rows cols [Hin|Hin]%elem_of_app.
  { by apply emitted_no_partials in Hin. }
  apply list_elem_of_fmap in Hin as ([n v] & [= -> -> -> -> ->] & Hv).
  apply elem_of_items in Hv. simpl.
  split; [by exists n, v|]. split; [done|].
  split; [by rewrite length_replicate, length_seqZ|].
  split; [apply NoDup_seqZ|]. split.
  - intros r Hr%elem_of_seqZ. rewrite length_seqZ. lia.
  - intros x Hx. by apply elem_of_replicate_inv in Hx.
Qed.


(** X17. A variable whose shape has a zero dimension is built with an empty
    derivative block: its one [declare_partials] call has no entry. *)
Theorem zero_dimension_gives_empty_block l ds :
  buildable ds ->
  exists self,
    build INF_BOUND l ds = Ok self /\
    forall n v, _vars self !! n = Some v -> 0%Z ∈ var_shape v ->
      partials_calls (calls self) (output_name v) (input_name v) = [([], [], [])].
Proof.
  intros Hds. eexists. split; [by apply build_ok|]. cbn [_vars calls].
  intros n v Hv Hzero. unfold partials_calls. rewrite omap_app.
  fold (partials_calls (flat_map (emitted l) (registered INF_BOUND <$> ds))
          (output_name v) (input_name v)).
  rewrite partials_calls_emitted. simpl.
  etrans.
  { apply (partials_calls_unique _ (n, v));
      [apply vars_output_names_NoDup | by apply elem_of_items]. }
  simpl. by rewrite (np_prod_zero _ Hzero).
Qed.

End Further.

(** ** The further properties with a premise, at the scenarios *)

Lemma compute_missing_input_raises_h :
  _vars built_h !! "h" =
    Some {| input_name := "final_value_in:h"; output_name := "final_value:h";
            var_shape := [1%Z] |} /\
  (∅ : gmap string ndarray) !! "final_value_in:h" = None /\
  exists k,
    compute built_h ∅ ∅ = Raise (KeyError k) /\
    (∅ : gmap string ndarray) !! k = None /\
    exists n' v', _vars built_h !! n' = Some v' /\ input_name v' = k.
Proof.
  split; [reflexivity|]. split; [reflexivity|].
  apply (compute_missing_input_raises built_h ∅ ∅ "h"
           {| input_name := "final_value_in:h"; output_name := "final_value:h";
              var_shape := [1%Z] |}); reflexivity.
Defined.

Lemma inputs_h_agree :
  forall n v, _vars built_h !! n = Some v ->
    inputs_h !! input_name v =
    (<["final_value_in:other" := {| nd_shape := []; nd_data := [0%float] |}]>
       inputs_h) !! input_name v.
Proof.
  intros n v Hv. cbn [built_h _vars] in Hv.
  apply odict_lookup_singleton_Some in Hv as [_ <-]. reflexivity.
Qed.

Lemma compute_reads_only_variable_inputs_h :
  (forall n v, _vars built_h !! n = Some v ->
     inputs_h !! input_name v =
     (<["final_value_in:other" := {| nd_shape := []; nd_data := [0%float] |}]>
        inputs_h) !! input_name v) /\
  compute built_h inputs_h ∅ =
  compute built_h
    (<["final_value_in:other" := {| nd_shape := []; nd_data := [0%float] |}]>
       inputs_h) ∅.
Proof.
  split; [exact inputs_h_agree|].
  apply (compute_reads_only_variable_inputs built_h). exact inputs_h_agree.
Defined.

Lemma compute_idempotent_h :
  build 1e20%float final [climb_h] = Ok built_h /\
  compute built_h inputs_h ∅ =
    Ok {[ "final_value:h" := {| nd_shape := [1%Z]; nd_data := [19500%float] |} ]} /\
  compute built_h inputs_h
    {[ "final_value:h" := {| nd_shape := [1%Z]; nd_data := [19500%float] |} ]} =
    Ok {[ "final_value:h" := {| nd_shape := [1%Z]; nd_data := [19500%float] |} ]}.
Proof.
  split; [vm_compute; reflexivity|]. split; [vm_compute; reflexivity|].
  apply (compute_idempotent 1e20%float final [climb_h] built_h inputs_h ∅);
    vm_compute; reflexivity.
Defined.

Lemma forwarded_bounds_paired_climb :
  buildable [climb_h; climb_gam] /\
  exists self,
    build 1e20%float final [climb_h; climb_gam] = Ok self /\
    forall n kw, add_constraint n kw ∈ calls self ->
      exists lo up,
        dict_get kw "lower" = Some lo /\ dict_get kw "upper" = Some up /\
        (lo = PNone <-> up = PNone).
Proof.
  split; [repeat constructor; done|].
  apply (forwarded_bounds_paired 1e20%float final [climb_h; climb_gam]).
  repeat constructor; done.
Defined.

Lemma build_one_variable_per_name_twice :
  buildable [climb_gam; climb_h; climb_gam_equals] /\
  exists self,
    build 1e20%float final [climb_gam; climb_h; climb_gam_equals] = Ok self /\
    dom (_vars self) =
      (list_to_set [climb_gam; climb_h; climb_gam_equals].*1 : gset string) /\
    length (calls self) =
      3 * length [climb_gam; climb_h; climb_gam_equals] + size (_vars self) /\
    (NoDup [climb_gam; climb_h; climb_gam_equals].*1 ->
     size (_vars self) = length [climb_gam; climb_h; climb_gam_equals]).
Proof.
  split; [repeat constructor; done|].
  apply (build_one_variable_per_name 1e20%float final
           [climb_gam; climb_h; climb_gam_equals]).
  repeat constructor; done.
Defined.

Lemma partials_declared_after_variables_climb :
  buildable [climb_h; climb_gam] /\
  exists self,
    build 1e20%float final [climb_h; climb_gam] = Ok self /\
    forall i o w val rows cols,
      calls self !! i = Some (declare_partials o w val rows cols) ->
      exists j k kwo kwi,
        j < i /\ k < i /\
        calls self !! j = Some (add_output o kwo) /\
        calls self !! k = Some (add_input w kwi).
Proof.
  split; [repeat constructor; done|].
  apply (partials_declared_after_variables 1e20%float final [climb_h; climb_gam]).
  repeat constructor; done.
Defined.

Lemma second_setup_repeats_calls_h :
  build 1e20%float final [climb_h] = Ok built_h /\
  exists self2,
    setup built_h = Ok self2 /\
    _constraints self2 = _constraints built_h /\
    _vars self2 = _vars built_h /\
    calls self2 = calls built_h ++ calls built_h.
Proof.
  split; [vm_compute; reflexivity|].
  apply (second_setup_repeats_calls 1e20%float final [climb_h] built_h).
  vm_compute. reflexivity.
Defined.

Lemma setup_keeps_what_it_finds_h :
  setup {| loc := final; _constraints := [climb_h]; _vars := ∅; calls := [] |}
    = Ok built_h /\
  loc built_h = final /\
  _constraints built_h = [climb_h] /\
  [] `prefix_of` calls built_h /\
  (forall n, is_Some ((∅ : odict var_options) !! n) ->
             is_Some (_vars built_h !! n)) /\
  (forall n, n ∉ [climb_h].*1 ->
             _vars built_h !! n = (∅ : odict var_options) !! n).
Proof.
  split; [vm_compute; reflexivity|].
  apply (setup_keeps_what_it_finds
           {| loc := final; _constraints := [climb_h]; _vars := ∅; calls := [] |}
           built_h).
  vm_compute. reflexivity.
Defined.

Lemma declaration_order_irrelevant_to_compute_h_z :
  let ds := [climb_h; empty_z] in
  let self :=
    {| loc := final;
       _constraints := registered 1e20%float <$> ds;
       _vars := vars_of final ds ∅;
       calls := flat_map (emitted final) (registered 1e20%float <$> ds) ++
                (partials_call <$> items (vars_of final ds ∅)) |} in
  NoDup ds.*1 /\
  ds ≡ₚ [empty_z; climb_h] /\
  build 1e20%float final ds = Ok self /\
  exists self',
    build 1e20%float final [empty_z; climb_h] = Ok self' /\
    (forall n, _vars self' !! n = _vars self !! n) /\
    forall (inputs outputs : gmap string ndarray),
      (forall n v, _vars self !! n = Some v ->
                   is_Some (inputs !! input_name v)) ->
      exists outputs',
        compute self inputs outputs = Ok outputs' /\
        compute self' inputs outputs = Ok outputs'.
Proof.
  intros ds self.
  assert (NoDup ds.*1) as Hnd.
  { apply (bool_decide_unpack _). vm_compute. exact I. }
  split; [exact Hnd|]. split; [apply perm_swap|].
  split; [vm_compute; reflexivity|].
  apply (declaration_order_irrelevant_to_compute 1e20%float final
           ds [empty_z; climb_h] self).
  - exact Hnd.
  - apply perm_swap.
  - vm_compute. reflexivity.
Defined.

Lemma partials_calls_well_formed_climb :
  buildable [climb_h; climb_gam] /\
  exists self,
    build 1e20%float final [climb_h; climb_gam] = Ok self /\
    forall o w val rows cols,
      declare_partials o w val rows cols ∈ calls self ->
      (exists n v, _vars self !! n = Some v /\ o = output_name v /\
                   w = input_name v) /\
      rows = cols /\ length val = length rows /\ NoDup rows /\
      (forall r, r ∈ rows -> (0 <= r < Z.of_nat (length rows))%Z) /\
      (forall x, x ∈ val -> x = 1%float).
Proof.
  split; [repeat constructor; done|].
  apply (partials_calls_well_formed 1e20%float final [climb_h; climb_gam]).
  repeat constructor; done.
Defined.


Lemma zero_dimension_gives_empty_block_z :
  buildable [climb_h; empty_z] /\
  exists self,
    build 1e20%float final [climb_h; empty_z] = Ok self /\
    forall n v, _vars self !! n = Some v -> 0%Z ∈ var_shape v ->
      partials_calls (calls self) (output_name v) (input_name v) = [([], [], [])].
Proof.
  split; [repeat constructor; done|].
  apply (zero_dimension_gives_empty_block 1e20%float final [climb_h; empty_z]).
  repeat constructor; done.
Defined.
